(** * Project Euler 50 in Python and Rust, and the DeepLCMS overlay helper

    A shallow embedding of the code shown in the blog posts of this site:
    the Python functions [is_prime], [generate_primes] and
    [longest_sum_of_consecutive_primes], the Rust transcription of
    [is_prime], and the pandas pipeline of [overlay_untargeted_data].

    Python integers are [Z]; Rust's [u32] is a [Z] below [2^32] with the
    overflow behaviour of the build written out; lists are [list Z]; the
    floating-point numbers of a data frame are the binary64 numbers of
    [PrimFloat]. *)

From Stdlib Require Import String Ascii.
From Stdlib Require Import ZArith List Lia Bool Sorted Uint63.
From Stdlib Require DecimalString.
From Stdlib Require Floats.
Import ListNotations.
Open Scope Z_scope.

(** ** While loops

    A [while] loop is the repetition of one function on the loop state: the
    function answers [inl s'] when the loop goes round again with state [s']
    and [inr r] when the loop is left with result [r] (the condition failed,
    or the body returned).  [iterate] runs at most [fuel] rounds; the fuel is
    binary, so that a large bound costs nothing to write down. *)

Section Loops.
Context {St R : Type}.
Variable f : St -> St + R.

Fixpoint iterate (fuel : positive) (s : St) : St + R :=
  match fuel with
  | xH => f s
  | xO p =>
      match iterate p s with
      | inl s' => iterate p s'
      | inr r => inr r
      end
  | xI p =>
      match f s with
      | inl s1 =>
          match iterate p s1 with
          | inl s' => iterate p s'
          | inr r => inr r
          end
      | inr r => inr r
      end
  end.

(** The same loop with unary fuel, for the proofs. *)
Fixpoint rounds (k : nat) (s : St) : St + R :=
  match k with
  | O => inl s
  | S k' =>
      match f s with
      | inl s' => rounds k' s'
      | inr r => inr r
      end
  end.
End Loops.

(** ** [is_prime] (Python)

<<
def is_prime(n):
    if n <= 1:
        return False
    i = 2
    while i * i <= n:
        if n % i == 0:
            return False
        i += 1
    return True
>>

    The loop state is the candidate divisor [i].  Beside it the state carries
    a ghost counter [k], the number of times the loop body has been entered;
    the code has no such variable and nothing reads it. *)

Definition is_prime_round (n : Z) (st : Z * N) : (Z * N) + (bool * N) :=
  let (i, k) := st in
  if i * i <=? n then
    if n mod i =? 0 then inr (false, N.succ k)
    else inl (i + 1, N.succ k)
  else inr (true, k).

(** [None] when the fuel runs out before the loop is left. *)
Definition is_prime_fuel (fuel : positive) (n : Z) : option (bool * N) :=
  if n <=? 1 then Some (false, 0%N)
  else
    match iterate (is_prime_round n) fuel (2, 0%N) with
    | inr r => Some r
    | inl _ => None
    end.

(** The loop is left after fewer than [n] rounds ([is_prime_fuel_enough]), so
    [n] itself is fuel enough and the last branch is never taken. *)
Definition is_prime_run (n : Z) : bool * N :=
  match is_prime_fuel (Z.to_pos n) n with
  | Some r => r
  | None => (false, 0%N)
  end.

Definition is_prime (n : Z) : bool := fst (is_prime_run n).

(** How many times the body of the [while] loop is entered. *)
Definition is_prime_body_runs (n : Z) : N := snd (is_prime_run n).

(** What holds each time the loop condition is evaluated: no number from 2 up
    to [i - 1] divides [n], and the body has been entered [i - 2] times. *)
Definition is_prime_inv (n : Z) (st : Z * N) : Prop :=
  let (i, k) := st in
  2 <= i /\ i <= n /\ Z.of_N k = i - 2 /\
  forall d, 2 <= d < i -> n mod d <> 0.

(** What holds of the answer when the loop is left. *)
Definition is_prime_post (n : Z) (res : bool * N) : Prop :=
  let (b, k) := res in
  if b then forall d, 2 <= d -> d * d <= n -> n mod d <> 0
  else exists d, 2 <= d /\ d * d <= n /\ n mod d = 0 /\ Z.of_N k = d - 1.

(** ** [range], [len], slices and [sum] *)

(** [range_from a k] is [a, a + 1, ..., a + k - 1]. *)
Fixpoint range_from (a : Z) (k : nat) : list Z :=
  match k with
  | O => []
  | S k' => a :: range_from (a + 1) k'
  end.

(** Python's [range(a, b)]: empty when [b <= a]. *)
Definition range (a b : Z) : list Z := range_from a (Z.to_nat (b - a)).

Definition len (l : list Z) : Z := Z.of_nat (length l).

(** Python's [l[i:j]] for indices that are not negative (the only ones the
    code forms): the items at positions [i], ..., [j - 1] that exist. *)
Definition slice (l : list Z) (i j : Z) : list Z :=
  firstn (Z.to_nat j - Z.to_nat i) (skipn (Z.to_nat i) l).

(** Python's [sum]: left to right from 0. *)
Definition sum (l : list Z) : Z := fold_left Z.add l 0.

(** ** [generate_primes]

<<
def generate_primes(target):
    primes = [n for n in range(2, target + 1) if is_prime(n)]
    return primes
>> *)

Definition generate_primes (target : Z) : list Z :=
  filter is_prime (range 2 (target + 1)).

(** ** [longest_sum_of_consecutive_primes]

<<
def longest_sum_of_consecutive_primes(primes, target):
    max_length = 0
    max_prime = 0

    for i in range(len(primes)):
        for j in range(i + max_length, len(primes)):
            sum_of_primes = sum(primes[i:j])
            if sum_of_primes > target:
                break
            if is_prime(sum_of_primes) and (j - i) > max_length:
                max_length = j - i
                max_prime = sum_of_primes

    return max_prime, max_length
>>

    The two variables the loops update travel as the pair
    [(max_prime, max_length)].  A [for] loop over a range is a recursion over
    the list of its values; the range of the inner loop is built once, from
    the value [max_length] has when the loop is entered. *)

Section Longest.
Variable primes : list Z.
Variable target : Z.

(** The inner loop for one [i], over the values [js] that remain for [j]. *)
Fixpoint inner_loop (i : Z) (js : list Z) (best : Z * Z) : Z * Z :=
  match js with
  | [] => best
  | j :: js' =>
      let sum_of_primes := sum (slice primes i j) in
      if sum_of_primes >? target then best
      else if is_prime sum_of_primes && (j - i >? snd best)
           then inner_loop i js' (sum_of_primes, j - i)
           else inner_loop i js' best
  end.

(** The outer loop, over the values [ixs] that remain for [i]. *)
Fixpoint outer_loop (ixs : list Z) (best : Z * Z) : Z * Z :=
  match ixs with
  | [] => best
  | i :: ixs' =>
      outer_loop ixs'
        (inner_loop i (range (i + snd best) (len primes)) best)
  end.

Definition longest_sum_of_consecutive_primes : Z * Z :=
  outer_loop (range 0 (len primes)) (0, 0).
End Longest.


(** *** What the function is after

    [prime_run primes target i j]: the run [primes[i:j]] of [j - i]
    consecutive entries sums to a prime that does not exceed [target]. *)
Definition prime_run (primes : list Z) (target i j : Z) : Prop :=
  0 <= i /\ i <= j /\ j <= len primes /\
  sum (slice primes i j) <= target /\
  is_prime (sum (slice primes i j)) = true.

(** The pair [(max_prime, max_length)] is the sum and the length of a longest
    such run. *)
Definition longest_run (primes : list Z) (target : Z) (res : Z * Z) : Prop :=
  (exists i j, prime_run primes target i j /\ j - i = snd res /\
               sum (slice primes i j) = fst res) /\
  (forall i j, prime_run primes target i j -> j - i <= snd res).

(** What the loops keep true of the pair [(max_prime, max_length)]: it is the
    initial pair, or the sum and the length of a run that stops before the
    last entry. *)
Definition best_inv (primes : list Z) (target : Z) (best : Z * Z) : Prop :=
  0 <= snd best /\
  (best = (0, 0) \/
   exists i j, prime_run primes target i j /\ j < len primes /\
               snd best = j - i /\ fst best = sum (slice primes i j)).

(** ** The double loop, one step at a time

    The same function as a machine whose state is the place control has
    reached, the loop indices, and the pair [(max_prime, max_length)].  A
    [for] loop over [range(a, b)] is the counter it abbreviates: start at [a],
    test against [b], add one.  Here nothing is bounded by construction, so
    that having a result is something to prove. *)

Inductive point : Type :=
| AtOuter (i : Z)        (* about to test [i] against [len(primes)] *)
| AtInner (i j : Z).     (* about to test [j] against [len(primes)] *)

Definition longest_step (primes : list Z) (target : Z)
    (c : point * (Z * Z)) : (point * (Z * Z)) + (Z * Z) :=
  let (pt, best) := c in
  match pt with
  | AtOuter i =>
      if i <? len primes then inl (AtInner i (i + snd best), best)
      else inr best
  | AtInner i j =>
      if j <? len primes then
        let sum_of_primes := sum (slice primes i j) in
        if sum_of_primes >? target then inl (AtOuter (i + 1), best)
        else if is_prime sum_of_primes && (j - i >? snd best)
             then inl (AtInner i (j + 1), (sum_of_primes, j - i))
             else inl (AtInner i (j + 1), best)
      else inl (AtOuter (i + 1), best)
  end.

(** [None] when the machine is still running after [fuel] steps. *)
Definition longest_sum_fuel (fuel : positive) (primes : list Z) (target : Z)
    : option (Z * Z) :=
  match iterate (longest_step primes target) fuel (AtOuter 0, (0, 0)) with
  | inr r => Some r
  | inl _ => None
  end.

(** Steps that are always enough: a test per value of [i] and one more, and
    for each [i] a test per value of [j] and one more. *)
Definition longest_steps_bound (primes : list Z) : positive :=
  Z.to_pos ((len primes + 1) * (len primes + 2)).

(** Where the indices are when a test is about to be made: [i] is a position
    of the list, or its length at the last test of the outer loop, and [j]
    starts at or after [i].  The body of the inner loop runs after the test
    [j < len(primes)] has passed, so there both are positions of the list. *)
Definition indices_in_list (primes : list Z) (c : point * (Z * Z)) : Prop :=
  0 <= snd (snd c) /\
  match fst c with
  | AtOuter i => 0 <= i <= len primes
  | AtInner i j => 0 <= i < len primes /\ i <= j
  end.

(** ** [is_prime] (Rust)

<<
fn is_prime(n: u32) -> bool {
    if n <= 1 {
        return false;
    }
    let mut i = 2;
    while i * i <= n {
        if n % i == 0 {
            return false;
        }
        i += 1;
    }
    true
}
>>

    [i] is a [u32] like [n].  What [i * i] and [i += 1] do past [u32::MAX]
    depends on the build: with overflow checks (the default of a debug build)
    the program panics, without them (the default of a release build, the one
    the post recommends) the result wraps modulo [2^32]. *)

Module Rust.

Definition u32_max : Z := 4294967295.

Inductive build : Type := Debug | Release.

Inductive outcome : Type :=
| Value (b : bool)
| Panic.

(** The [u32] an arithmetic result [x >= 0] becomes, [None] for a panic. *)
Definition u32_of (mode : build) (x : Z) : option Z :=
  if x <=? u32_max then Some x
  else match mode with
       | Debug => None
       | Release => Some (x mod (u32_max + 1))
       end.

Definition is_prime_round (mode : build) (n i : Z) : Z + outcome :=
  match u32_of mode (i * i) with
  | None => inr Panic
  | Some sq =>
      if sq <=? n then
        if i =? 0 then inr Panic               (* remainder by zero *)
        else if n mod i =? 0 then inr (Value false)
        else match u32_of mode (i + 1) with
             | None => inr Panic
             | Some i' => inl i'
             end
      else inr (Value true)
  end.

Definition is_prime_fuel (mode : build) (fuel : positive) (n : Z)
    : option outcome :=
  if n <=? 1 then Some (Value false)
  else
    match iterate (is_prime_round mode n) fuel 2 with
    | inr r => Some r
    | inl _ => None
    end.

(** For [n] a [u32], the loop is left within [n] rounds in either build
    ([rust_is_prime_fuel_enough]); the last branch is never taken. *)
Definition is_prime (mode : build) (n : Z) : outcome :=
  match is_prime_fuel mode (Z.to_pos n) n with
  | Some r => r
  | None => Panic
  end.

End Rust.

(** ** Evaluating at scale

    Two evaluations are too long to run the functions as written inside a
    proof: [is_prime] at a number near [2^32], and the double loop on the
    78498 primes up to one million.  The functions below compute the same
    values with less work; that they do is proved, not assumed. *)

(** The loop of [is_prime] on 63-bit machine integers; [None] when the fuel
    runs out. *)
Fixpoint trial63 (fuel : nat) (n i : int) : option bool :=
  match fuel with
  | O => None
  | S fuel' =>
      if (i * i <=? n)%uint63 then
        if (n mod i =? 0)%uint63 then Some false
        else trial63 fuel' n (i + 1)%uint63
      else Some true
  end.

(** The inner loop on [rest], the entries from position [j] on, with [s] the
    sum of the entries from [i] to [j - 1] and [k = j - i]. *)
Fixpoint inner_fast (target : Z) (rest : list Z) (s k : Z) (best : Z * Z)
    : Z * Z :=
  match rest with
  | [] => best
  | p :: rest' =>
      if s >? target then best
      else if is_prime s && (k >? snd best)
           then inner_fast target rest' (s + p) (k + 1) (s, k)
           else inner_fast target rest' (s + p) (k + 1) best
  end.

(** The outer loop on [suffix], the entries from position [i] on. *)
Fixpoint outer_fast (target : Z) (suffix : list Z) (best : Z * Z) : Z * Z :=
  match suffix with
  | [] => best
  | _ :: suffix' =>
      let ml := Z.to_nat (snd best) in
      outer_fast target suffix'
        (inner_fast target (skipn ml suffix) (sum (firstn ml suffix))
           (snd best) best)
  end.

(** The same two loops on an initial part [a] of the list only.  The inner
    loop must reach its [break] inside [a] ([None] if it does not): what
    follows [a] is then never looked at. *)
Fixpoint inner_cut (target : Z) (rest : list Z) (s k : Z) (best : Z * Z)
    : option (Z * Z) :=
  match rest with
  | [] => None
  | p :: rest' =>
      if s >? target then Some best
      else if is_prime s && (k >? snd best)
           then inner_cut target rest' (s + p) (k + 1) (s, k)
           else inner_cut target rest' (s + p) (k + 1) best
  end.

(** The outer loop stops as soon as the [max_length] entries from position
    [i] on already sum to more than [target]: in an increasing list the same
    holds from every later position, and the pair changes no more. *)
Fixpoint outer_cut (target : Z) (a : list Z) (best : Z * Z)
    : option (Z * Z) :=
  let ml := Z.to_nat (snd best) in
  if (ml <? length a)%nat && (sum (firstn ml a) >? target) then Some best
  else
    match a with
    | [] => None
    | _ :: a' =>
        match inner_cut target (skipn ml a) (sum (firstn ml a))
                (snd best) best with
        | Some best1 => outer_cut target a' best1
        | None => None
        end
    end.

(** ** [overlay_untargeted_data] (DeepLCMS)

<<
def overlay_untargeted_data(query_str, ms_dial_location,
                            background_image_location, crop_area):
    df = (
        pd.read_csv(ms_dial_location, skiprows=4, usecols=[...])
        .rename(columns=lambda x: re.sub(r"\W|[%/]", "_", x.lower()))
        .query("annotation_tag__vs1_0_ == '430' or annotation_tag__vs1_0_ == '530'")
        .query(query_str)
        .drop_duplicates(subset="metabolite_name")
    )
    sns.scatterplot(data=df, x="average_rt_min_", y="average_mz", ...)
    plt.ylim(50, 750)
    plt.xlim(0, 20)
    plt.axis(False)
    buf = io.BytesIO()
    plt.savefig(buf, format="jpeg", bbox_inches="tight", pad_inches=0)
    buf.seek(0)
    foreground = PIL.Image.open(buf)
    plt.close()
    background = (PIL.Image.open(background_image_location)
                  .convert("RGB").crop(crop_area).resize(foreground.size))
    mask = PIL.Image.new("L", foreground.size, 128)
    composite_img = PIL.Image.composite(background, foreground, mask)
    return composite_img, df
>>

    The function works on what is outside it: the two files its arguments
    name, and the state of [matplotlib.pyplot] (the open figures, the
    settings in [rcParams]).  That state is the record [world], passed in
    and handed back, also when the call raises.

    A CSV file is taken as its lines, each line as the texts of its fields
    (the splitting at commas and quotes is not modelled).  [read_csv] turns
    the texts of a column into values of one type, as pandas does: integers,
    binary64 numbers, booleans, or Python strings with [NaN] for a missing
    value.  A pandas expression such as [query_str] is taken as what it
    evaluates to on a data frame: a boolean mask, or an exception.  An image
    is the term of the PIL operations that made it.

    pandas and PIL have corners that are left alone here: lines with more or
    fewer fields than the header, numbers written with an exponent, with
    more than 15 digits or with blanks around them, files so large that
    pandas reads them block by block, a degenerate crop box.  On these the
    model answers [Unmodelled], and nothing is said about them. *)

Module DeepLCMS.

Local Open Scope string_scope.

(** *** Text *)

Fixpoint map_string (f : ascii -> ascii) (s : string) : string :=
  match s with
  | EmptyString => EmptyString
  | String c s' => String (f c) (map_string f s')
  end.

Definition between (lo hi : nat) (c : ascii) : bool :=
  let n := nat_of_ascii c in (lo <=? n)%nat && (n <=? hi)%nat.

(** [x.lower()], on ASCII letters. *)
Definition lower_char (c : ascii) : ascii :=
  if between 65 90 c then ascii_of_nat (nat_of_ascii c + 32) else c.

Definition lower (s : string) : string := map_string lower_char s.

(** [\w]: a letter, a digit or the underscore (bytes of characters beyond
    ASCII are left alone; the column names the code reads have none). *)
Definition is_word_char (c : ascii) : bool :=
  between 48 57 c || between 65 90 c || between 97 122 c ||
  between 95 95 c || between 128 255 c.

(** [lambda x: re.sub(r"\W|[%/]", "_", x.lower())] *)
Definition rename_column (x : string) : string :=
  map_string (fun c => if is_word_char c then c else "_"%char) (lower x).

(** *** What a call gives *)

Inductive exception : Type :=
| FileNotFoundError         (* [open] of a path that names no file *)
| EmptyDataError            (* pandas: no line to read the header from *)
| ValueError                (* pandas: [usecols] not in the header;
                               PIL: a crop box with right < left *)
| KeyError                  (* pandas: a column the frame does not have *)
| UndefinedVariableError    (* pandas: a name in a query that is no column *)
| UnidentifiedImageError    (* PIL: the file is no image *)
| Exception (name : string). (* whatever else the evaluation of a query raises *)

Inductive outcome (A : Type) : Type :=
| Returns (a : A)
| Raises (e : exception)
| Unmodelled.

Arguments Returns {A} a.
Arguments Raises {A} e.
Arguments Unmodelled {A}.

Definition bind {A B : Type} (x : outcome A) (k : A -> outcome B)
    : outcome B :=
  match x with
  | Returns a => k a
  | Raises e => Raises e
  | Unmodelled => Unmodelled
  end.

Notation "x <- e ;; k" := (bind e (fun x => k))
  (at level 61, e at next level, right associativity).

(** *** Values *)

Inductive dtype : Type := int64 | float64 | bool_ | object_.

Inductive value : Type :=
| VInt (z : Z)
| VFloat (f : PrimFloat.float)
| VBool (b : bool)
| VStr (s : string)
| VNaN.

Definition dtype_eqb (d1 d2 : dtype) : bool :=
  match d1, d2 with
  | int64, int64 | float64, float64 | bool_, bool_ | object_, object_ => true
  | _, _ => false
  end.

(** Equality as [drop_duplicates] sees it: two missing values are the
    same. *)
Definition value_eqb (v1 v2 : value) : bool :=
  match v1, v2 with
  | VInt a, VInt b => Z.eqb a b
  | VFloat a, VFloat b => PrimFloat.Leibniz.eqb a b
  | VBool a, VBool b => Bool.eqb a b
  | VStr a, VStr b => String.eqb a b
  | VNaN, VNaN => true
  | _, _ => false
  end.

(** *** From the text of a field to a value *)

Fixpoint only (p : ascii -> bool) (s : string) : bool :=
  match s with
  | EmptyString => true
  | String c s' => p c && only p s'
  end.

Definition is_digit (c : ascii) : bool := between 48 57 c.

(** The characters C calls white space. *)
Definition is_space (c : ascii) : bool := between 9 13 c || between 32 32 c.

Definition digit (c : ascii) : Z := Z.of_nat (nat_of_ascii c) - 48.

Fixpoint digits (acc : Z) (s : string) : Z :=
  match s with
  | EmptyString => acc
  | String c s' => digits (10 * acc + digit c) s'
  end.

Definition unsigned (s : string) : bool * string :=
  match s with
  | String "-" r => (true, r)
  | String "+" r => (false, r)
  | _ => (false, s)
  end.

Fixpoint before_point (s : string) : string :=
  match s with
  | EmptyString => EmptyString
  | String c r => if Ascii.eqb c "." then EmptyString
                  else String c (before_point r)
  end.

Fixpoint after_point (s : string) : option string :=
  match s with
  | EmptyString => None
  | String c r => if Ascii.eqb c "." then Some r else after_point r
  end.

(** A whole number below [2^63] as a binary64 number: the nearest one. *)
Definition float_of_Z (z : Z) : PrimFloat.float :=
  if (z <? 0)%Z then PrimFloat.opp (PrimFloat.of_uint63 (Uint63.of_Z (- z)))
  else PrimFloat.of_uint63 (Uint63.of_Z z).

Fixpoint pow10 (k : nat) : PrimFloat.float :=
  match k with
  | O => PrimFloat.of_uint63 1
  | S k' => PrimFloat.mul (PrimFloat.of_uint63 10) (pow10 k')
  end.

(** The binary64 number nearest to [m / 10^k], for [m] of at most 15 digits
    and [k] at most 15: both are binary64 numbers as they stand, and the
    division rounds once.  This is the number that pandas, and Python for a
    literal, read from the digits. *)
Definition decimal (m : Z) (k : nat) : PrimFloat.float :=
  PrimFloat.div (float_of_Z m) (pow10 k).

(** What pandas can take a field for. *)
Inductive token : Type :=
| NA                        (* a missing value *)
| Whole (z : Z)             (* [123], [-7], [+5] *)
| Decimal (f : PrimFloat.float)  (* [4.50], [.5], [-12.] *)
| Truth (b : bool)          (* [True], [false] *)
| Text                      (* anything that is certainly none of these *)
| Odd.                      (* a number, or maybe one, in another notation *)

(** The texts that pandas reads as a missing value. *)
Definition na_values : list string :=
  [""; "#N/A"; "#N/A N/A"; "#NA"; "-1.#IND"; "-1.#QNAN"; "-NaN"; "-nan";
   "1.#IND"; "1.#QNAN"; "<NA>"; "N/A"; "NA"; "NULL"; "NaN"; "n/a"; "nan";
   "null"].

Definition has_name (name : string) (names : list string) : bool :=
  existsb (String.eqb name) names.

Definition number_character (c : ascii) : bool :=
  is_digit c || is_space c ||
  existsb (Ascii.eqb c) ["+"; "-"; "."; "e"; "E"]%char.

(** The plain notations: an optional sign and up to 18 digits; or an
    optional sign and up to 15 digits with a point among them.  Minus zero
    is left out. *)
Definition number (s : string) : token :=
  let (negative, r) := unsigned s in
  match after_point r with
  | None =>
      if only is_digit r && (1 <=? String.length r)%nat
         && (String.length r <=? 18)%nat
      then Whole (if negative then - digits 0 r else digits 0 r)
      else Odd
  | Some b =>
      let a := before_point r in
      let n := (String.length a + String.length b)%nat in
      let m := digits 0 (a ++ b) in
      if only is_digit a && only is_digit b && (1 <=? n)%nat && (n <=? 15)%nat
         && negb (negative && Z.eqb m 0)
      then Decimal (decimal (if negative then - m else m) (String.length b))
      else Odd
  end.

Definition classify (s : string) : token :=
  if has_name s na_values then NA
  else if has_name s ["True"; "TRUE"; "true"] then Truth true
  else if has_name s ["False"; "FALSE"; "false"] then Truth false
  else if only number_character s then number s
  else if has_name (lower (snd (unsigned s)))
            ["inf"; "infinity"; "nan"; "true"; "false"; "none"] then Odd
  else Text.

Definition is_odd (t : token) : bool :=
  match t with Odd => true | _ => false end.
Definition is_na (t : token) : bool :=
  match t with NA => true | _ => false end.
Definition is_whole (t : token) : bool :=
  match t with Whole _ => true | _ => false end.
Definition is_truth (t : token) : bool :=
  match t with Truth _ => true | _ => false end.
Definition is_text (t : token) : bool :=
  match t with Text => true | _ => false end.

(** A number or a missing value; a whole number only when it has at most 15
    digits, so that its binary64 number is itself. *)
Definition is_float (t : token) : bool :=
  match t with
  | NA | Decimal _ => true
  | Whole z => (Z.abs z <? 10 ^ 15)%Z
  | _ => false
  end.

(** The type pandas gives a column, from the texts of its fields: it tries
    [int64], then [float64], then [bool], and falls back on [object].  A
    column without a row is [object]; a column of missing values only is
    [float64]. *)
Definition infer (fields : list string) : option dtype :=
  let ts := map classify fields in
  if existsb is_odd ts then None
  else if (length ts =? 0)%nat then Some object_
  else if forallb is_na ts then Some float64
  else if forallb is_whole ts then Some int64
  else if forallb is_float ts then Some float64
  else if forallb is_truth ts then Some bool_
  else if existsb is_text ts then Some object_
  else None.

(** The value of a field in a column of type [d]. *)
Definition convert (d : dtype) (s : string) : value :=
  match d, classify s with
  | int64, Whole z => VInt z
  | float64, Whole z => VFloat (float_of_Z z)
  | float64, Decimal f => VFloat f
  | bool_, Truth b => VBool b
  | object_, NA => VNaN
  | object_, _ => VStr s
  | _, _ => VNaN
  end.

Fixpoint infer_all (cols : list (list string)) : option (list dtype) :=
  match cols with
  | [] => Some []
  | col :: cols' =>
      match infer col, infer_all cols' with
      | Some d, Some ds => Some (d :: ds)
      | _, _ => None
      end
  end.

(** *** Data frames *)

(** A row keeps the label pandas gives it when the file is read: its
    position among the data lines. *)
Record frame : Type := {
  columns : list string;
  dtypes : list dtype;
  rows : list (nat * list value)
}.

Definition csv : Type := list (list string).

Definition usecols : list string :=
  ["Average Rt(min)"; "Average Mz"; "Metabolite name"; "Ontology";
   "Annotation tag (VS1.0)"; "MS/MS matched"; "SP_10"; "SP_20"].

(** A line that pandas passes over: nothing on it, or blanks and tabs
    only. *)
Definition blank (line : list string) : bool :=
  match line with
  | [] => true
  | [w] => only (fun c => between 32 32 c || between 9 9 c) w
  | _ => false
  end.

(** The positions of the header names that [usecols] asks for, in the order
    of the file.  Of two columns of one name pandas renames the second, so
    that the name stands for the first. *)
Fixpoint positions (p : nat) (seen header wanted : list string) : list nat :=
  match header with
  | [] => []
  | h :: header' =>
      if has_name h wanted && negb (has_name h seen)
      then p :: positions (S p) (h :: seen) header' wanted
      else positions (S p) (h :: seen) header' wanted
  end.

Definition pick (keep : list nat) (line : list string) : list string :=
  map (fun p => nth p line "") keep.

Fixpoint convert_all (ds : list dtype) (fields : list string) : list value :=
  match ds, fields with
  | d :: ds', s :: fields' => convert d s :: convert_all ds' fields'
  | _, _ => []
  end.

(** [pd.read_csv(file, skiprows=..., usecols=...)].  The first [skiprows]
    lines are dropped, then the blank lines; the first line left is the
    header.  No line left is an [EmptyDataError], a wanted column that the
    header does not have a [ValueError]. *)
Definition read_csv (file : csv) (skiprows : nat) (wanted : list string)
    : outcome frame :=
  match filter (fun line => negb (blank line)) (skipn skiprows file) with
  | [] => Raises EmptyDataError
  | header :: data =>
      if negb (forallb (fun name => has_name name header) wanted)
      then Raises ValueError
      else if negb (forallb (fun line => (length line =? length header)%nat)
                      data)
      then Unmodelled
      else if negb (2 * Z.of_nat (length data) * Z.of_nat (length header)
                    <=? 2 ^ 20)%Z
      then Unmodelled
      else
        let keep := positions 0 [] header wanted in
        match infer_all (map (fun p => map (fun line => nth p line "") data)
                           keep) with
        | None => Unmodelled
        | Some ds =>
            Returns {| columns := pick keep header;
                       dtypes := ds;
                       rows := combine (seq 0 (length data))
                                 (map (fun line =>
                                         convert_all ds (pick keep line))
                                    data) |}
        end
  end.

(** [df.rename(columns=f)] *)
Definition rename (f : string -> string) (df : frame) : frame :=
  {| columns := map f (columns df); dtypes := dtypes df; rows := rows df |}.

Fixpoint index_of (name : string) (names : list string) : option nat :=
  match names with
  | [] => None
  | h :: names' =>
      if String.eqb name h then Some O
      else option_map S (index_of name names')
  end.

(** The value of a row in the column at position [p]. *)
Definition at_position (p : nat) (row : list value) : value := nth p row VNaN.

(** The value of a row in the column called [name]. *)
Definition lookup (names : list string) (row : list value) (name : string)
    : value :=
  match index_of name names with
  | Some p => at_position p row
  | None => VNaN
  end.

Definition dtype_of (df : frame) (name : string) : option dtype :=
  match index_of name (columns df) with
  | Some p => nth_error (dtypes df) p
  | None => None
  end.

(** *** Queries *)

(** What the evaluation of a pandas expression on a data frame gives: a
    boolean for every row, an exception, or something else (a number for
    every row, say). *)
Inductive answer : Type :=
| Mask (m : list bool)
| Fails (e : exception)
| Other.

Definition expression : Type := frame -> answer.

Fixpoint keep_rows {A : Type} (m : list bool) (l : list A) : list A :=
  match m, l with
  | b :: m', x :: l' => if b then x :: keep_rows m' l' else keep_rows m' l'
  | _, _ => []
  end.

(** [df.query(e)] *)
Definition query (e : expression) (df : frame) : outcome frame :=
  match e df with
  | Mask m =>
      if (length m =? length (rows df))%nat
      then Returns {| columns := columns df; dtypes := dtypes df;
                      rows := keep_rows m (rows df) |}
      else Unmodelled
  | Fails ex => Raises ex
  | Other => Unmodelled
  end.

(** [x == '430' or x == '530']: a number is never equal to a string. *)
Definition is_430_or_530 (v : value) : bool :=
  match v with
  | VStr s => String.eqb s "430" || String.eqb s "530"
  | _ => false
  end.

(** ["annotation_tag__vs1_0_ == '430' or annotation_tag__vs1_0_ == '530'"] *)
Definition tag_430_or_530 : expression :=
  fun df =>
    match index_of "annotation_tag__vs1_0_" (columns df) with
    | None => Fails UndefinedVariableError
    | Some p => Mask (map (fun r => is_430_or_530 (at_position p (snd r)))
                        (rows df))
    end.

(** The queries of the document are made of [lo < column < hi], [and] and
    [or]; the numbers are written with a few digits. *)
Inductive formula : Type :=
| Inside (lo : Z * nat) (name : string) (hi : Z * nat)
| Both (f g : formula)
| Either (f g : formula).

Fixpoint names_of (f : formula) : list string :=
  match f with
  | Inside _ name _ => [name]
  | Both f g | Either f g => names_of f ++ names_of g
  end%list.

Definition literal (d : Z * nat) : PrimFloat.float := decimal (fst d) (snd d).

(** A value as the binary64 number it is compared as; an integer past
    [2^53] is left alone. *)
Definition as_float (v : value) : option PrimFloat.float :=
  match v with
  | VInt z => if (Z.abs z <? 2 ^ 53)%Z then Some (float_of_Z z) else None
  | VFloat f => Some f
  | VNaN => Some PrimFloat.nan
  | _ => None
  end.

Fixpoint holds (names : list string) (row : list value) (f : formula)
    : option bool :=
  match f with
  | Inside lo name hi =>
      match as_float (lookup names row name) with
      | Some x => Some (PrimFloat.ltb (literal lo) x
                        && PrimFloat.ltb x (literal hi))
      | None => None
      end
  | Both f g =>
      match holds names row f, holds names row g with
      | Some a, Some b => Some (a && b)
      | _, _ => None
      end
  | Either f g =>
      match holds names row f, holds names row g with
      | Some a, Some b => Some (a || b)
      | _, _ => None
      end
  end.

Fixpoint all_some {A : Type} (l : list (option A)) : option (list A) :=
  match l with
  | [] => Some []
  | Some a :: l' => option_map (cons a) (all_some l')
  | None :: _ => None
  end.

Definition is_numeric (d : option dtype) : bool :=
  match d with
  | Some int64 | Some float64 => true
  | _ => false
  end.

(** The names that pandas finds without a column: the index and the column
    axis, what it puts in scope of every expression, and the words of
    Python. *)
Definition reserved : list string :=
  ["index"; "columns"; "ilevel_0"; "clevel_0"; "Timestamp"; "datetime";
   "True"; "False"; "None"; "list"; "tuple"; "inf"; "Inf";
   "and"; "or"; "not"; "in"; "is"; "if"; "else"; "elif"; "for"; "while";
   "def"; "class"; "lambda"; "import"; "from"; "as"; "with"; "try";
   "except"; "finally"; "raise"; "return"; "yield"; "pass"; "break";
   "continue"; "del"; "global"; "nonlocal"; "assert"; "async"; "await"].

(** A Python identifier in ASCII that is none of these. *)
Definition plain_name (s : string) : bool :=
  match s with
  | EmptyString => false
  | String c _ =>
      negb (is_digit c) &&
      only (fun c => is_digit c || between 65 90 c || between 97 122 c
                     || between 95 95 c) s &&
      negb (has_name s reserved)
  end.

(** What a formula evaluates to: a name that is no column, and nothing
    else, is an [UndefinedVariableError]; the comparison of numbers with
    columns of numbers is a mask. *)
Definition denote (f : formula) : expression :=
  fun df =>
    let unknown :=
      filter (fun name => negb (has_name name (columns df))) (names_of f) in
    if negb (length unknown =? 0)%nat
    then if forallb plain_name unknown then Fails UndefinedVariableError
         else Other
    else if negb (forallb (fun name => is_numeric (dtype_of df name))
                    (names_of f))
    then Other
    else
      match all_some (map (fun r => holds (columns df) (snd r) f) (rows df))
      with
      | Some m => Mask m
      | None => Other
      end.

(** The rows whose key has not been seen, first come first kept. *)
Fixpoint first_of_each (key : list value -> value) (seen : list value)
    (rs : list (nat * list value)) : list (nat * list value) :=
  match rs with
  | [] => []
  | r :: rs' =>
      if existsb (value_eqb (key (snd r))) seen
      then first_of_each key seen rs'
      else r :: first_of_each key (key (snd r) :: seen) rs'
  end.

(** [df.drop_duplicates(subset=name)] *)
Definition drop_duplicates (name : string) (df : frame) : outcome frame :=
  match index_of name (columns df) with
  | None => Raises KeyError
  | Some p =>
      Returns {| columns := columns df; dtypes := dtypes df;
                 rows := first_of_each (at_position p) [] (rows df) |}
  end.

(** [l1] is [l2] with some entries left out, the others in their order. *)
Inductive subsequence {A : Type} : list A -> list A -> Prop :=
| subseq_nil : subsequence [] []
| subseq_skip (x : A) (l1 l2 : list A) :
    subsequence l1 l2 -> subsequence l1 (x :: l2)
| subseq_keep (x : A) (l1 l2 : list A) :
    subsequence l1 l2 -> subsequence (x :: l1) (x :: l2).

(** The data frame of [overlay_untargeted_data]. *)
Definition load_frame (query_str : expression) (file : csv) : outcome frame :=
  raw <- read_csv file 4 usecols ;;
  tagged <- query tag_430_or_530 (rename rename_column raw) ;;
  asked <- query query_str tagged ;;
  drop_duplicates "metabolite_name" asked.

(** *** The figure, the images and the world *)

Inductive artist : Type :=
| Scatter (points : list (value * value))   (* sns.scatterplot *)
| Artist (what : string).                   (* anything drawn before *)

Record figure : Type := {
  artists : list artist;
  ylim : option (Z * Z);
  xlim : option (Z * Z);
  axis_on : bool
}.

Definition new_figure : figure :=
  {| artists := []; ylim := None; xlim := None; axis_on := true |}.

(** [rcParams], with what a seaborn theme has put there. *)
Definition settings : Type := list (string * string).

Inductive image : Type :=
| FromFile (content : string)                    (* PIL.Image.open(path) *)
| Rendered (rc : settings) (fig : figure)        (* savefig, then open   *)
| ConvertRGB (im : image)
| Crop (area : Z * Z * Z * Z) (im : image)
| ResizeLike (im like : image)                   (* im.resize(like.size) *)
| NewL (like : image) (fill : Z)                 (* new("L", like.size, fill) *)
| Composite (im1 im2 mask : image).

(** What a path of the file system holds, for PIL. *)
Inductive stored : Type :=
| Picture (content : string)
| NoPicture.

Record world : Type := {
  csv_files : string -> option csv;
  image_files : string -> option stored;
  figures : list figure;         (* the open figures, the current one first *)
  rc : settings
}.

(** [sns.scatterplot(data=df, x=..., y=...)] and the three [plt] calls, on
    the current figure. *)
Definition draw (df : frame) (fig : figure) : figure :=
  {| artists :=
       Scatter (map (fun r => (lookup (columns df) (snd r) "average_rt_min_",
                               lookup (columns df) (snd r) "average_mz"))
                  (rows df)) :: artists fig;
     ylim := Some (50, 750);
     xlim := Some (0, 20);
     axis_on := false |}.

(** The two columns that are plotted hold numbers. *)
Definition plottable (df : frame) : bool :=
  is_numeric (dtype_of df "average_rt_min_") &&
  is_numeric (dtype_of df "average_mz").

(** [PIL.Image.open(path).convert("RGB").crop(crop_area)], with
    [crop_area = (x0, y0, x1, y1)], that is (left, upper, right, lower): a
    box whose right side is left of its left side, or whose lower side is
    above its upper side, is a [ValueError]. *)
Definition open_and_crop (w : world) (path : string) (area : Z * Z * Z * Z)
    : outcome image :=
  match image_files w path with
  | None => Raises FileNotFoundError
  | Some NoPicture => Raises UnidentifiedImageError
  | Some (Picture content) =>
      let '(x0, y0, x1, y1) := area in
      if (x1 <? x0)%Z || (y1 <? y0)%Z then Raises ValueError
      else if Z.eqb x1 x0 || Z.eqb y1 y0 then Unmodelled
      else Returns (Crop area (ConvertRGB (FromFile content)))
  end.

(** pyplot draws in the current figure, and makes one when none is open;
    [plt.close()] closes the current figure. *)
Definition close_current (w : world) : world :=
  {| csv_files := csv_files w;
     image_files := image_files w;
     figures := tl (figures w);
     rc := rc w |}.

(** The answer of the call and the world it leaves.  With the answer
    [Unmodelled] the world that is handed back stands for nothing. *)
Definition overlay_untargeted_data (w : world) (query_str : expression)
    (ms_dial_location background_image_location : string)
    (crop_area : Z * Z * Z * Z) : outcome (image * frame) * world :=
  match csv_files w ms_dial_location with
  | None => (Raises FileNotFoundError, w)
  | Some file =>
      match load_frame query_str file with
      | Raises e => (Raises e, w)
      | Unmodelled => (Unmodelled, w)
      | Returns df =>
          if negb (plottable df) then (Unmodelled, w)
          else
            let current := hd new_figure (figures w) in
            let foreground := Rendered (rc w) (draw df current) in
            (bind (open_and_crop w background_image_location crop_area)
               (fun cropped =>
                  let background := ResizeLike cropped foreground in
                  let mask := NewL foreground 128 in
                  Returns (Composite background foreground mask, df)),
             close_current w)
      end
  end.

(** *** Calls and the state

    A call of a function is something that is given the world and leaves a
    world.  A function whose body names nothing outside it, neither a
    global variable nor a file nor [pyplot], as [is_prime],
    [generate_primes] and [longest_sum_of_consecutive_primes], is the call
    that hands back its value and the world it was given. *)
Definition call (A : Type) : Type := world -> outcome A * world.

Definition pure {A : Type} (a : A) : call A := fun w => (Returns a, w).

(** Free of state: the same answer in every world, and every world left as
    it was. *)
Definition free_of_state {A : Type} (c : call A) : Prop :=
  (forall w1 w2, fst (c w1) = fst (c w2)) /\ (forall w, snd (c w) = w).

(** *** A small file

    Four lines of preamble, the header with one column more than the code
    reads, and six data lines: two annotated 530 with the same metabolite,
    one annotated 430, one not identified (999), one annotated 430 outside
    the region the query below asks for, and one whose annotation is a
    remark, which makes the column one of strings. *)
Definition example_file : csv :=
  [ ["MS-DIAL export"]; [""]; [""]; ["Class"; ""; ""; ""; ""; ""; ""; ""; "pooled"];
    ["Alignment ID"; "Average Rt(min)"; "Average Mz"; "Metabolite name";
     "Ontology"; "Annotation tag (VS1.0)"; "MS/MS matched"; "SP_10"; "SP_20"];
    ["0"; "4.1"; "462.17"; "Morphine-3-glucuronide"; "Morphinans"; "530";
     "False"; "1200"; "1100"];
    ["1"; "4.2"; "462.17"; "Morphine-3-glucuronide"; "Morphinans"; "530";
     "False"; "900"; "950"];
    ["2"; "4.5"; "478.30"; "EDDP"; "Diphenylmethanes"; "430"; "True";
     "700"; "650"];
    ["3"; "4.6"; "480.10"; "Unknown"; "null"; "999"; "False"; "10"; "12"];
    ["4"; "15.0"; "120.08"; "Aspirin"; "Acylsalicylic acids"; "430"; "True";
     "300"; "310"];
    ["5"; "7.3"; "301.2"; "Unknown"; "null"; "not annotated"; "False";
     "25"; "31"] ].

(** ["3.5<average_rt_min_<5 and 460<average_mz<500"], the first part of the
    query of the first figure of the document. *)
Definition example_query : expression :=
  denote (Both (Inside (35, 1%nat) "average_rt_min_" (5, 0%nat))
               (Inside (460, 0%nat) "average_mz" (500, 0%nat))).

(** The queries of the two figures of the document:
<<
"3.5<average_rt_min_<5 and 460<average_mz<500 or 5<average_rt_min_<6.5 and
 575<average_mz<650 or 9.5<average_rt_min_<10 and 280<average_mz<320"

"(16.5<average_rt_min_<18 and 180<average_mz<250) or (4<average_rt_min_<5.5
 and 50<average_mz<100) or (8<average_rt_min_<12 and 50<average_mz<100) or
 (8.5<average_rt_min_<9 and 250<average_mz<300) or (12<average_rt_min_<14
 and 200<average_mz<220) or (18<average_rt_min_<20 and 280<average_mz<350)"
>>
    ([and] binds more tightly than [or]). *)
Definition region (rt_lo rt_hi mz_lo mz_hi : Z * nat) : formula :=
  Both (Inside rt_lo "average_rt_min_" rt_hi)
       (Inside mz_lo "average_mz" mz_hi).

Definition whole (z : Z) : Z * nat := (z, 0%nat).

Definition query_of_figure_1 : expression :=
  denote
    (Either (Either (region (35, 1%nat) (whole 5) (whole 460) (whole 500))
                    (region (whole 5) (65, 1%nat) (whole 575) (whole 650)))
            (region (95, 1%nat) (whole 10) (whole 280) (whole 320))).

Definition query_of_figure_2 : expression :=
  denote
    (Either
       (Either
          (Either
             (Either
                (Either
                   (region (165, 1%nat) (whole 18) (whole 180) (whole 250))
                   (region (whole 4) (55, 1%nat) (whole 50) (whole 100)))
                (region (whole 8) (whole 12) (whole 50) (whole 100)))
             (region (85, 1%nat) (whole 9) (whole 250) (whole 300)))
          (region (whole 12) (whole 14) (whole 200) (whole 220)))
       (region (whole 18) (whole 20) (whole 280) (whole 350))).

(** The same file with other numbers in its first data line. *)
Definition other_file : csv :=
  (firstn 5 example_file ++
   ["0"; "4.9"; "499.00"; "Morphine-3-glucuronide"; "Morphinans"; "530";
    "False"; "1250"; "1100"] :: skipn 6 example_file)%list.

(** The same file with every annotation a numeral. *)
Definition numeral_file : csv := firstn 10 example_file.

(** A figure somebody has already drawn in. *)
Definition old_figure : figure :=
  {| artists := [Artist "a line plot"]; ylim := None; xlim := None;
     axis_on := true |}.

Definition example_world (file : csv) (open : list figure) : world :=
  {| csv_files := fun path =>
       if String.eqb path "PeakID.csv" then Some file else None;
     image_files := fun path =>
       if String.eqb path "activation.png" then Some (Picture "png bytes")
       else None;
     figures := open;
     rc := [] |}.

Definition renamed_columns : list string :=
  ["average_rt_min_"; "average_mz"; "metabolite_name"; "ontology";
   "annotation_tag__vs1_0_"; "ms_ms_matched"; "sp_10"; "sp_20"].

(** What the call on the example file hands back as its data frame. *)
Definition example_frame : frame :=
  {| columns := renamed_columns;
     dtypes := [float64; float64; object_; object_; object_; bool_;
                int64; int64];
     rows :=
       [(0%nat, [VFloat (decimal 41 1); VFloat (decimal 46217 2);
                 VStr "Morphine-3-glucuronide"; VStr "Morphinans";
                 VStr "530"; VBool false; VInt 1200; VInt 1100]);
        (2%nat, [VFloat (decimal 45 1); VFloat (decimal 4783 1);
                 VStr "EDDP"; VStr "Diphenylmethanes"; VStr "430";
                 VBool true; VInt 700; VInt 650])] |}.

End DeepLCMS.
(** ** More about the loop of [is_prime]: how often the body runs

    A second invariant of the same loop, which also keeps track of the
    square of the last candidate that was passed. *)

Definition is_prime_count_inv (n : Z) (st : Z * N) : Prop :=
  let (i, k) := st in
  2 <= i /\ (i - 1) * (i - 1) <= n /\ Z.of_N k = i - 2 /\
  forall d, 2 <= d < i -> n mod d <> 0.

(** With [t] the number of times the body has run: [t + 1] is the last
    candidate whose square was within [n]; on [True] the next square is
    beyond [n], on [False] the candidate [t + 1] is the first that divides
    [n]. *)
Definition is_prime_count_post (n : Z) (res : bool * N) : Prop :=
  let (b, k) := res in
  let t := Z.of_N k in
  (t + 1) * (t + 1) <= n /\
  if b then n < (t + 2) * (t + 2)
  else 2 <= t + 1 /\ n mod (t + 1) = 0 /\
       forall d, 2 <= d <= t -> n mod d <> 0.

(** ** [generate_primes] and [longest_sum_of_consecutive_primes] (Rust)

<<
fn longest_sum_of_consecutive_primes(primes: Vec<u32>, target: u32) -> (u32, usize) {
    let mut max_length: usize = 0;
    let mut max_prime: u32 = 0;

    for i in 0..primes.len() {
        for j in i + max_length..primes.len() {
            let sum_of_primes: u32 = primes[i..j].iter().sum();
            if sum_of_primes > target {
                break;
            }
            if is_prime(sum_of_primes) && (j - i) > max_length {
                max_length = j - i;
                max_prime = sum_of_primes;
            }
        }
    }
    (max_prime, max_length)
}

fn generate_primes(target: u32) -> Vec<u32> {
    (2..=target).filter(|&n| is_prime(n)).collect::<Vec<u32>>()
}
>>

    The entries and the sums are [u32]; a sum past [u32::MAX] panics or
    wraps with the build, like the product in [is_prime].  The indices are
    [usize], which the positions of a vector in memory never overflow; they
    are plain integers here.  A panic, of the function itself or of
    [is_prime] called from it, is [None]. *)

Module RustLoops.

(** [iter().sum()] on top of [acc]: one [u32] addition per entry. *)
Fixpoint sum (mode : Rust.build) (l : list Z) (acc : Z) : option Z :=
  match l with
  | [] => Some acc
  | x :: l' =>
      match Rust.u32_of mode (acc + x) with
      | None => None
      | Some acc' => sum mode l' acc'
      end
  end.

(** [filter(|&n| is_prime(n)).collect()] over the numbers [l]. *)
Fixpoint filter_primes (mode : Rust.build) (l : list Z) : option (list Z) :=
  match l with
  | [] => Some []
  | n :: l' =>
      match Rust.is_prime mode n with
      | Rust.Panic => None
      | Rust.Value b =>
          match filter_primes mode l' with
          | None => None
          | Some r => Some (if b then n :: r else r)
          end
      end
  end.

Definition generate_primes (mode : Rust.build) (target : Z)
    : option (list Z) :=
  filter_primes mode (range 2 (target + 1)).

Section Longest.
Variable mode : Rust.build.
Variable primes : list Z.
Variable target : Z.

Fixpoint inner_loop (i : Z) (js : list Z) (best : Z * Z) : option (Z * Z) :=
  match js with
  | [] => Some best
  | j :: js' =>
      match sum mode (slice primes i j) 0 with
      | None => None
      | Some sum_of_primes =>
          if sum_of_primes >? target then Some best
          else
            match Rust.is_prime mode sum_of_primes with
            | Rust.Panic => None
            | Rust.Value b =>
                if b && (j - i >? snd best)
                then inner_loop i js' (sum_of_primes, j - i)
                else inner_loop i js' best
            end
      end
  end.

Fixpoint outer_loop (ixs : list Z) (best : Z * Z) : option (Z * Z) :=
  match ixs with
  | [] => Some best
  | i :: ixs' =>
      match inner_loop i (range (i + snd best) (len primes)) best with
      | None => None
      | Some best' => outer_loop ixs' best'
      end
  end.

Definition longest_sum_of_consecutive_primes : option (Z * Z) :=
  outer_loop (range 0 (len primes)) (0, 0).
End Longest.

End RustLoops.

(** ** The tables of the DeepLCMS report

    Two more pieces of code of the same document: the function that turns
    the column names of a results table into headings,

<<
    .rename(
        columns=lambda df: df.replace("_", " ").replace("val", "validation").title()
    )
>>

    and the table made of the two data frames [overlay_untargeted_data]
    hands back,

<<
pd.concat([pattern_df_1, pattern_df_2], axis=0).drop(columns=["sp_10", "sp_20"]).head(
    50
)
>> *)

Module Report.

Import DeepLCMS.
Local Open Scope string_scope.

Fixpoint all_chars (p : ascii -> bool) (s : string) : bool :=
  match s with
  | EmptyString => true
  | String c s' => p c && all_chars p s'
  end.

(** What [rename_column] does to one character. *)
Definition rename_char (c : ascii) : ascii :=
  let l := lower_char c in if is_word_char l then l else "_"%char.

Definition not_underscore (c : ascii) : bool := negb (Ascii.eqb c "_").

(** [s.replace(old, new)] for [old] not empty: the occurrences of [old],
    found from the left and not overlapping.  [skip] counts the characters
    of an occurrence that are still to be passed over. *)
Fixpoint replace_from (old new : string) (skip : nat) (s : string) : string :=
  match s with
  | EmptyString => EmptyString
  | String c s' =>
      match skip with
      | S k => replace_from old new k s'
      | O =>
          if prefix old s
          then new ++ replace_from old new (String.length old - 1) s'
          else String c (replace_from old new 0 s')
      end
  end.

Definition replace (old new s : string) : string := replace_from old new 0 s.

Definition is_letter (c : ascii) : bool := between 65 90 c || between 97 122 c.

Definition upper_char (c : ascii) : ascii :=
  if between 97 122 c then ascii_of_nat (nat_of_ascii c - 32) else c.

(** [s.title()] on ASCII: a letter that follows a letter is made lower case,
    any other letter upper case.  [inside] says whether the character before
    was a letter. *)
Fixpoint title_from (inside : bool) (s : string) : string :=
  match s with
  | EmptyString => EmptyString
  | String c s' =>
      if is_letter c
      then String (if inside then lower_char c else upper_char c)
             (title_from true s')
      else String c (title_from false s')
  end.

Definition title (s : string) : string := title_from false s.

(** [lambda df: df.replace("_", " ").replace("val", "validation").title()] *)
Definition heading (df : string) : string :=
  title (replace "val" "validation" (replace "_" " " df)).

(** [pd.concat([df1, df2], axis=0)] of two frames with the same columns,
    of the same types, in the same order: the rows of [df1], then those of
    [df2], labels kept. *)
Definition same_layout (df1 df2 : frame) : bool :=
  (length (columns df1) =? length (columns df2))%nat &&
  forallb (fun cc => String.eqb (fst cc) (snd cc))
    (combine (columns df1) (columns df2)) &&
  (length (dtypes df1) =? length (dtypes df2))%nat &&
  forallb (fun dd => dtype_eqb (fst dd) (snd dd))
    (combine (dtypes df1) (dtypes df2)).

Definition concat (df1 df2 : frame) : outcome frame :=
  if same_layout df1 df2
  then Returns {| columns := columns df1; dtypes := dtypes df1;
                  rows := (rows df1 ++ rows df2)%list |}
  else Unmodelled.

(** What is left of a list laid along the columns [names] when the columns
    called [gone] are taken out. *)
Fixpoint without {A : Type} (gone names : list string) (l : list A)
    : list A :=
  match names, l with
  | c :: names', x :: l' =>
      if has_name c gone then without gone names' l'
      else x :: without gone names' l'
  | _, _ => []
  end.

(** [df.drop(columns=names)]: a [KeyError] when a name is no column. *)
Definition drop (names : list string) (df : frame) : outcome frame :=
  if forallb (fun n => has_name n (columns df)) names then
    Returns {| columns := filter (fun c => negb (has_name c names))
                            (columns df);
               dtypes := without names (columns df) (dtypes df);
               rows := map (fun r => (fst r,
                                      without names (columns df) (snd r)))
                         (rows df) |}
  else Raises KeyError.

(** [df.head(n)] *)
Definition head (n : nat) (df : frame) : frame :=
  {| columns := columns df; dtypes := dtypes df;
     rows := firstn n (rows df) |}.

Definition identifications (pattern_df_1 pattern_df_2 : frame)
    : outcome frame :=
  both <- concat pattern_df_1 pattern_df_2 ;;
  kept <- drop ["sp_10"; "sp_20"] both ;;
  Returns (head 50 kept).

End Report.
(** ** [main], first and last version

<<
def main():
    TARGET = 1_000_000
    primes = generate_primes(TARGET)
    max_prime, max_length = longest_sum_of_consecutive_primes(primes, TARGET)
    print(f"Prime: {max_prime}, Length: {max_length}")
>>

    and, at the end of the post, the same with [rs_extension.generate_primes]
    and [rs_extension.longest_sum_of_consecutive_primes].  [main] is modelled
    by the line it prints; a panic of the extension leaves no line
    ([None]). *)

(** An integer inside an f-string: its decimal digits. *)
Definition str (z : Z) : string :=
  DecimalString.NilZero.string_of_int (Z.to_int z).

Definition report (max_prime max_length : Z) : string :=
  ("Prime: " ++ str max_prime ++ ", Length: " ++ str max_length)%string.

Definition main : string :=
  (fun TARGET =>
     let primes := generate_primes TARGET in
     let '(max_prime, max_length) :=
       longest_sum_of_consecutive_primes primes TARGET in
     report max_prime max_length) 1000000.

Definition rs_main (mode : Rust.build) : option string :=
  (fun TARGET =>
     match RustLoops.generate_primes mode TARGET with
     | None => None
     | Some primes =>
         match
           RustLoops.longest_sum_of_consecutive_primes mode primes TARGET
         with
         | None => None
         | Some (max_prime, max_length) =>
             Some (report max_prime max_length)
         end
     end) 1000000.

(** * Proofs *)

(** ** Facts about loops *)

Lemma to_pos_to_nat (x : Z) : 0 < x -> Pos.to_nat (Z.to_pos x) = Z.to_nat x.
Proof. destruct x; simpl; lia. Qed.

Section LoopFacts.
Context {St R : Type}.
Variable f : St -> St + R.

Lemma rounds_add (a b : nat) (s : St) :
  rounds f (a + b) s =
  match rounds f a s with
  | inl s' => rounds f b s'
  | inr r => inr r
  end.
Proof.
  revert s; induction a as [|a IH]; intros s; simpl; [reflexivity|].
  destruct (f s) as [s'|r]; [apply IH | reflexivity].
Qed.

Lemma iterate_rounds (fuel : positive) (s : St) :
  iterate f fuel s = rounds f (Pos.to_nat fuel) s.
Proof.
  revert s; induction fuel as [p IH|p IH|]; intros s.
  - rewrite Pos2Nat.inj_xI. simpl.
    destruct (f s) as [s1|r]; [|reflexivity].
    replace (Pos.to_nat p + (Pos.to_nat p + 0))%nat
      with (Pos.to_nat p + Pos.to_nat p)%nat by lia.
    rewrite rounds_add, <- IH.
    destruct (iterate f p s1); [apply IH | reflexivity].
  - rewrite Pos2Nat.inj_xO. simpl.
    replace (Pos.to_nat p + (Pos.to_nat p + 0))%nat
      with (Pos.to_nat p + Pos.to_nat p)%nat by lia.
    rewrite rounds_add, <- IH.
    destruct (iterate f p s); [apply IH | reflexivity].
  - simpl. destruct (f s); reflexivity.
Qed.

(** A loop that has been left stays left, whatever fuel remains. *)
Lemma rounds_more (a b : nat) (s : St) (r : R) :
  rounds f a s = inr r -> (a <= b)%nat -> rounds f b s = inr r.
Proof.
  intros H Hab. replace b with (a + (b - a))%nat by lia.
  rewrite rounds_add, H. reflexivity.
Qed.

(** Invariant rule: what holds of the state on entry and is kept by every
    round holds of whatever the loop hands back. *)
Lemma rounds_invariant (I : St -> Prop) (Q : R -> Prop) :
  (forall s, I s -> match f s with inl s' => I s' | inr r => Q r end) ->
  forall k s, I s ->
  match rounds f k s with inl s' => I s' | inr r => Q r end.
Proof.
  intros Hstep k; induction k as [|k IH]; intros s Hs; simpl; [exact Hs|].
  specialize (Hstep s Hs). destruct (f s) as [s'|r]; [apply IH|]; exact Hstep.
Qed.

(** Variant rule: a measure that every round decreases bounds the number
    of rounds. *)
Lemma rounds_variant (I : St -> Prop) (m : St -> nat) :
  (forall s, I s ->
     match f s with inl s' => I s' /\ (m s' < m s)%nat | inr _ => True end) ->
  forall k s, I s -> (m s < k)%nat -> exists r, rounds f k s = inr r.
Proof.
  intros Hstep k; induction k as [|k IH]; intros s Hs Hm; [lia|]. simpl.
  specialize (Hstep s Hs). destruct (f s) as [s'|r]; [|eauto].
  destruct Hstep as [Hs' Hlt]. apply IH; [exact Hs' | lia].
Qed.
End LoopFacts.


(** ** The loop of [is_prime] *)

Lemma is_prime_round_inv (n : Z) (st : Z * N) :
  is_prime_inv n st ->
  match is_prime_round n st with
  | inl st' => is_prime_inv n st'
  | inr res => is_prime_post n res
  end.
Proof.
  destruct st as [i k]. intros (Hi & Hin & Hk & Hd). unfold is_prime_round.
  destruct (Z.leb_spec (i * i) n) as [Hsq|Hsq].
  - destruct (Z.eqb_spec (n mod i) 0) as [Hm|Hm]; simpl.
    + exists i. repeat split; try lia.
    + assert (i * 2 <= i * i) by (apply Z.mul_le_mono_nonneg_l; lia).
      repeat split; try lia.
      intros d Hr. destruct (Z.eq_dec d i) as [->|Hne]; [exact Hm|].
        apply Hd; lia.
  - simpl. intros d Hd2 Hdd. apply Hd. split; [exact Hd2|]. nia.
Qed.

Lemma is_prime_round_variant (n : Z) (st : Z * N) :
  is_prime_inv n st ->
  match is_prime_round n st with
  | inl st' => is_prime_inv n st' /\
               (Z.to_nat (n - fst st') < Z.to_nat (n - fst st))%nat
  | inr _ => True
  end.
Proof.
  intros Hinv. pose proof (is_prime_round_inv n st Hinv) as H.
  destruct st as [i k]. destruct Hinv as (Hi & Hin & _).
  unfold is_prime_round in *.
  destruct (Z.leb_spec (i * i) n) as [Hsq|Hsq]; [|exact I].
  destruct (Z.eqb_spec (n mod i) 0); [exact I|].
  split; [exact H|]. simpl.
  assert (i * 2 <= i * i) by (apply Z.mul_le_mono_nonneg_l; lia). lia.
Qed.

(** The loop is left within [n - 1] rounds. *)
Lemma is_prime_loop_total (n : Z) (k : nat) :
  1 < n -> (Z.to_nat n <= k)%nat ->
  exists res, rounds (is_prime_round n) k (2, 0%N) = inr res /\
              is_prime_post n res.
Proof.
  intros Hn Hk.
  assert (Hinit : is_prime_inv n (2, 0%N)).
  { repeat split; try lia. }
  destruct (rounds_variant (is_prime_round n) (is_prime_inv n)
              (fun st => Z.to_nat (n - fst st))
              (is_prime_round_variant n) k (2, 0%N) Hinit) as [res Hres].
  { simpl. lia. }
  exists res. split; [exact Hres|].
  pose proof (rounds_invariant (is_prime_round n) (is_prime_inv n)
                (is_prime_post n) (is_prime_round_inv n) k (2, 0%N) Hinit) as H.
  rewrite Hres in H. exact H.
Qed.

(** Fuel [n] is enough, and more fuel changes nothing. *)
Lemma is_prime_fuel_enough (n : Z) (fuel : positive) :
  (Z.to_pos n <= fuel)%positive ->
  is_prime_fuel fuel n = Some (is_prime_run n).
Proof.
  intros Hf. unfold is_prime_run, is_prime_fuel.
  destruct (Z.leb_spec n 1) as [Hn|Hn]; [reflexivity|].
  rewrite !iterate_rounds.
  destruct (is_prime_loop_total n (Pos.to_nat (Z.to_pos n))) as (res & Hres & _);
    [lia | lia |].
  rewrite Hres.
  rewrite (rounds_more _ _ (Pos.to_nat fuel) _ _ Hres) by lia.
  reflexivity.
Qed.

Lemma is_prime_run_post (n : Z) :
  1 < n -> is_prime_post n (is_prime_run n).
Proof.
  intros Hn. unfold is_prime_run, is_prime_fuel.
  destruct (Z.leb_spec n 1) as [|_]; [lia|].
  rewrite iterate_rounds.
  destruct (is_prime_loop_total n (Pos.to_nat (Z.to_pos n))) as (res & Hres & Hp);
    [lia | lia |].
  rewrite Hres. exact Hp.
Qed.

Lemma is_prime_small (n : Z) : n <= 1 -> is_prime_run n = (false, 0%N).
Proof.
  intros Hn. unfold is_prime_run, is_prime_fuel.
  destruct (Z.leb_spec n 1); [reflexivity | lia].
Qed.

(** [is_prime] decides the trial-division criterion. *)
Lemma is_prime_true_iff (n : Z) :
  is_prime n = true <->
  2 <= n /\ forall d, 2 <= d -> d * d <= n -> n mod d <> 0.
Proof.
  unfold is_prime. destruct (Z.le_gt_cases n 1) as [Hn|Hn].
  - rewrite is_prime_small by exact Hn. simpl. split; [discriminate | lia].
  - pose proof (is_prime_run_post n Hn) as Hp.
    destruct (is_prime_run n) as [b k]. simpl in *. destruct b.
    + split; [intros _; split; [lia | exact Hp] | reflexivity].
    + split; [discriminate|]. intros [_ Hnd].
      destruct Hp as (d & Hd & Hdd & Hm & _). exfalso. exact (Hnd d Hd Hdd Hm).
Qed.

(** The trial-division criterion is primality. *)
Lemma trial_division_prime (n : Z) :
  (2 <= n /\ forall d, 2 <= d -> d * d <= n -> ~ (d | n)) <-> Z.prime n.
Proof.
  unfold Z.prime. split.
  - intros [Hn Hnd]. split; [lia|]. intros d Hd [q Hq].
    assert (Hq1 : 1 < q < n) by nia.
    destruct (Z.le_gt_cases (d * d) n) as [Hle|Hgt].
    + apply (Hnd d); [lia | exact Hle | exists q; exact Hq].
    + apply (Hnd q); [lia | nia | exists d; lia].
  - intros [Hn Hnd]. split; [lia|]. intros d Hd Hdd. apply Hnd. nia.
Qed.


Lemma mod_zero_divide (n d : Z) : 2 <= d -> (n mod d = 0 <-> (d | n)).
Proof. intros Hd. apply Z.mod_divide. lia. Qed.

Lemma is_prime_iff_trial (n : Z) :
  is_prime n = true <->
  2 <= n /\ forall d, 2 <= d -> d * d <= n -> ~ (d | n).
Proof.
  rewrite is_prime_true_iff. split; intros [Hn Hd]; (split; [exact Hn|]);
    intros d Hd2 Hdd; specialize (Hd d Hd2 Hdd);
    rewrite (mod_zero_divide n d Hd2) in *; exact Hd.
Qed.

Lemma is_prime_iff_prime (n : Z) : is_prime n = true <-> Z.prime n.
Proof. rewrite is_prime_iff_trial. apply trial_division_prime. Qed.

(** C3: [is_prime] is a correct trial-division primality test.  For every
    integer [n], [is_prime n] is [true] exactly when [n] is prime, which is to
    say when [n >= 2] and no [d] with [2 <= d] and [d * d <= n] divides [n]. *)
Theorem is_prime_correct (n : Z) :
  (is_prime n = true <-> Z.prime n) /\
  (is_prime n = true <->
   2 <= n /\ forall d, 2 <= d -> d * d <= n -> ~ (d | n)).
Proof.
  split; [apply is_prime_iff_prime | apply is_prime_iff_trial].
Qed.

Lemma is_prime_false_iff (n : Z) :
  is_prime n = false <-> ~ Z.prime n.
Proof.
  pose proof (is_prime_iff_prime n) as H.
  destruct (is_prime n); split; intros H1; try discriminate; try reflexivity.
  - exfalso. apply H1, H. reflexivity.
  - intros Hp. apply H in Hp. discriminate.
Qed.

(** C8: for every integer [n <= 1], negative ones and 0 included,
    [is_prime n] is [false], and the body of the trial-division loop is not
    entered once. *)
Theorem is_prime_at_most_one (n : Z) :
  n <= 1 -> is_prime n = false /\ is_prime_body_runs n = 0%N.
Proof.
  intros Hn. unfold is_prime, is_prime_body_runs.
  rewrite (is_prime_small n Hn). split; reflexivity.
Qed.

Lemma is_prime_at_most_one_witness :
  is_prime (-5) = false /\ is_prime_body_runs (-5) = 0%N.
Proof. apply (is_prime_at_most_one (-5)). lia. Defined.

(** The counter does count: a composite is answered in the round of its
    least divisor, a prime once the square of the candidate passes it. *)
Example is_prime_body_runs_49 : is_prime_run 49 = (false, 6%N).
Proof. reflexivity. Qed.

Example is_prime_body_runs_97 : is_prime_run 97 = (true, 8%N).
Proof. reflexivity. Qed.

(** ** Trial division on machine integers *)

Lemma trial63_rounds (nZ : Z) (fuel : nat) :
  nZ < 2 ^ 62 ->
  forall (n i : int) (c : N) (b : bool),
  Uint63.to_Z n = nZ -> 0 <= Uint63.to_Z i <= 2 ^ 31 ->
  trial63 fuel n i = Some b ->
  exists c', rounds (is_prime_round nZ) fuel (Uint63.to_Z i, c) = inr (b, c').
Proof.
  intros HnZ. induction fuel as [|fuel IH]; intros n i c b Hn Hi; simpl;
    [discriminate|].
  assert (Hsq : Uint63.to_Z (i * i) = Uint63.to_Z i * Uint63.to_Z i).
  { rewrite Uint63.mul_spec. apply Z.mod_small.
    change wB with 9223372036854775808. change (2 ^ 31) with 2147483648 in Hi.
    nia. }
  destruct (i * i <=? n)%uint63 eqn:Hle.
  - apply Uint63.leb_spec in Hle. rewrite Hsq, Hn in Hle.
    destruct (Z.leb_spec (Uint63.to_Z i * Uint63.to_Z i) nZ); [|lia].
    assert (Hi1 : Uint63.to_Z (i + 1) = Uint63.to_Z i + 1).
    { rewrite Uint63.add_spec, Uint63.to_Z_1. apply Z.mod_small.
      change wB with 9223372036854775808. change (2 ^ 31) with 2147483648 in Hi.
      lia. }
    destruct (n mod i =? 0)%uint63 eqn:Hm.
    + apply Uint63.eqb_spec in Hm.
      apply (f_equal Uint63.to_Z) in Hm.
      rewrite Uint63.mod_spec, Uint63.to_Z_0, Hn in Hm.
      intros [= <-]. rewrite Hm. simpl. eauto.
    + assert (Hm' : nZ mod Uint63.to_Z i <> 0).
      { intros Hz. apply Uint63.eqb_false_spec in Hm. apply Hm.
        apply Uint63.to_Z_inj.
        now rewrite Uint63.mod_spec, Uint63.to_Z_0, Hn. }
      destruct (Z.eqb_spec (nZ mod Uint63.to_Z i) 0); [contradiction|].
      intros Ht. rewrite <- Hi1. apply (IH n); try assumption.
      rewrite Hi1. change (2 ^ 62) with 4611686018427387904 in HnZ.
      change (2 ^ 31) with 2147483648 in *. nia.
  - assert (Hgt : ~ Uint63.to_Z (i * i) <= Uint63.to_Z n).
    { intros H. apply Uint63.leb_spec in H. congruence. }
    rewrite Hsq, Hn in Hgt.
    destruct (Z.leb_spec (Uint63.to_Z i * Uint63.to_Z i) nZ); [lia|].
    intros [= <-]. eauto.
Qed.

Lemma trial63_is_prime (fuel : nat) (n : Z) (b : bool) :
  1 < n < 2 ^ 62 ->
  trial63 fuel (Uint63.of_Z n) 2%uint63 = Some b -> is_prime n = b.
Proof.
  intros Hn Ht.
  assert (Hn63 : Uint63.to_Z (Uint63.of_Z n) = n).
  { rewrite Uint63.of_Z_spec. apply Z.mod_small.
    change wB with 9223372036854775808.
    change (2 ^ 62) with 4611686018427387904 in Hn. lia. }
  destruct (trial63_rounds n fuel ltac:(lia) (Uint63.of_Z n) 2%uint63 0%N b
              Hn63 ltac:(change (Uint63.to_Z 2) with 2; lia) Ht) as [c' Hr].
  change (Uint63.to_Z 2) with 2 in Hr.
  unfold is_prime, is_prime_run, is_prime_fuel.
  destruct (Z.leb_spec n 1); [lia|]. rewrite iterate_rounds.
  destruct (is_prime_loop_total n (Pos.to_nat (Z.to_pos n))) as (res & Hres & _);
    [lia | lia |].
  rewrite Hres.
  pose proof (rounds_more _ _ (Nat.max fuel (Pos.to_nat (Z.to_pos n))) _ _ Hr
                ltac:(lia)) as H1.
  pose proof (rounds_more _ _ (Nat.max fuel (Pos.to_nat (Z.to_pos n))) _ _ Hres
                ltac:(lia)) as H2.
  rewrite H1 in H2. injection H2 as <-. reflexivity.
Qed.

(** The largest prime below [2^32], by the loop of [is_prime]. *)
Lemma is_prime_4294967291 : is_prime 4294967291 = true.
Proof.
  apply (trial63_is_prime (Z.to_nat 65536)).
  - split; reflexivity.
  - vm_compute. reflexivity.
Qed.

(** ** Ranges, slices and sums *)

Lemma range_from_In (k : nat) (a x : Z) :
  In x (range_from a k) <-> a <= x < a + Z.of_nat k.
Proof.
  revert a; induction k as [|k IH]; intros a; simpl; [lia|].
  rewrite IH. lia.
Qed.

Lemma range_In (a b x : Z) : In x (range a b) <-> a <= x < b.
Proof. unfold range. rewrite range_from_In. lia. Qed.

Lemma range_from_sorted (k : nat) (a : Z) :
  StronglySorted Z.lt (range_from a k).
Proof.
  revert a; induction k as [|k IH]; intros a; simpl; constructor.
  - apply IH.
  - apply Forall_forall. intros x Hx. apply range_from_In in Hx. lia.
Qed.

Lemma range_empty (a b : Z) : b <= a -> range a b = [].
Proof. intros H. unfold range. replace (Z.to_nat (b - a)) with O by lia. reflexivity. Qed.

Lemma range_cons (a b : Z) : a < b -> range a b = a :: range (a + 1) b.
Proof.
  intros H. unfold range.
  replace (Z.to_nat (b - a)) with (S (Z.to_nat (b - (a + 1)))) by lia.
  reflexivity.
Qed.

Lemma filter_sorted {A : Type} (lt : A -> A -> Prop) (p : A -> bool) (l : list A) :
  StronglySorted lt l -> StronglySorted lt (filter p l).
Proof.
  induction 1 as [|x l Hs IH Hall]; simpl; [constructor|].
  destruct (p x); [|exact IH]. constructor; [exact IH|].
  apply Forall_forall. intros y Hy. apply filter_In in Hy.
  rewrite Forall_forall in Hall. apply Hall, Hy.
Qed.

Lemma fold_add_shift (l : list Z) (a : Z) :
  fold_left Z.add l a = a + fold_left Z.add l 0.
Proof.
  revert a; induction l as [|x l IH]; intros a; simpl; [lia|].
  rewrite (IH (a + x)), (IH x). lia.
Qed.

Lemma sum_nil : sum [] = 0.
Proof. reflexivity. Qed.

Lemma sum_cons (x : Z) (l : list Z) : sum (x :: l) = x + sum l.
Proof. unfold sum. simpl. apply fold_add_shift. Qed.

Lemma sum_app (l1 l2 : list Z) : sum (l1 ++ l2) = sum l1 + sum l2.
Proof.
  induction l1 as [|x l1 IH]; simpl; [reflexivity|].
  rewrite !sum_cons, IH. lia.
Qed.

(** ** [generate_primes] *)

Lemma generate_primes_In (target n : Z) :
  In n (generate_primes target) <-> 2 <= n <= target /\ is_prime n = true.
Proof. unfold generate_primes. rewrite filter_In, range_In. intuition lia. Qed.

Lemma generate_primes_sorted (target : Z) :
  StronglySorted Z.lt (generate_primes target).
Proof. apply filter_sorted, range_from_sorted. Qed.

(** C9: for every integer [target], [generate_primes target] holds exactly
    the integers [n] with [2 <= n <= target] and [is_prime n] true, in
    strictly increasing order; below 2 it is the empty list. *)
Theorem generate_primes_spec (target : Z) :
  (forall n, In n (generate_primes target) <->
             2 <= n <= target /\ is_prime n = true) /\
  StronglySorted Z.lt (generate_primes target) /\
  (target < 2 -> generate_primes target = []).
Proof.
  split; [|split].
  - intros n. apply generate_primes_In.
  - apply generate_primes_sorted.
  - intros H. unfold generate_primes. rewrite range_empty by lia. reflexivity.
Qed.

Lemma generate_primes_spec_witness : generate_primes 1 = [].
Proof. apply (generate_primes_spec 1). lia. Defined.

Example generate_primes_30 :
  generate_primes 30 = [2; 3; 5; 7; 11; 13; 17; 19; 23; 29].
Proof. reflexivity. Qed.

Lemma generate_primes_prime (target n : Z) :
  In n (generate_primes target) <-> n <= target /\ Z.prime n.
Proof.
  rewrite generate_primes_In, is_prime_iff_prime.
  split; intros [H1 H2]; (split; [|exact H2]); [lia|].
  destruct H2 as [H2 _]. lia.
Qed.

Lemma generate_primes_nonneg (target : Z) :
  Forall (fun x => 0 <= x) (generate_primes target).
Proof.
  apply Forall_forall. intros x Hx. apply generate_primes_In in Hx. lia.
Qed.

(** ** Slices *)

Lemma firstn_plus {A : Type} (a b : nat) (l : list A) :
  firstn (a + b) l = firstn a l ++ firstn b (skipn a l).
Proof.
  revert l; induction a as [|a IH]; intros l; simpl; [reflexivity|].
  destruct l as [|x l]; simpl.
  - now rewrite firstn_nil.
  - now rewrite IH.
Qed.

Lemma skipn_plus {A : Type} (a b : nat) (l : list A) :
  skipn (a + b) l = skipn b (skipn a l).
Proof.
  revert l; induction a as [|a IH]; intros l; simpl; [reflexivity|].
  destruct l as [|x l]; simpl; [now rewrite skipn_nil | apply IH].
Qed.

Lemma skipn_nil_iff {A : Type} (a : nat) (l : list A) :
  skipn a l = [] <-> (length l <= a)%nat.
Proof.
  revert l; induction a as [|a IH]; intros l; destruct l as [|x l]; simpl;
    try (split; [intros; lia | reflexivity]).
  - split; [discriminate | lia].
  - rewrite IH. lia.
Qed.

Lemma len_nonneg (l : list Z) : 0 <= len l.
Proof. unfold len. lia. Qed.

Lemma slice_split (l : list Z) (i j j' : Z) :
  0 <= i -> i <= j -> j <= j' ->
  slice l i j' = slice l i j ++ slice l j j'.
Proof.
  intros Hi Hij Hjj. unfold slice.
  replace (Z.to_nat j' - Z.to_nat i)%nat
    with ((Z.to_nat j - Z.to_nat i) + (Z.to_nat j' - Z.to_nat j))%nat by lia.
  rewrite firstn_plus, <- skipn_plus.
  replace (Z.to_nat i + (Z.to_nat j - Z.to_nat i))%nat with (Z.to_nat j) by lia.
  reflexivity.
Qed.

Lemma firstn_In {A : Type} (n : nat) (l : list A) (x : A) :
  In x (firstn n l) -> In x l.
Proof.
  revert l; induction n as [|n IH]; intros l; simpl; [tauto|].
  destruct l as [|y l]; simpl; [tauto|]. intros [H|H]; [now left | right; now apply IH].
Qed.

Lemma skipn_In {A : Type} (n : nat) (l : list A) (x : A) :
  In x (skipn n l) -> In x l.
Proof.
  revert l; induction n as [|n IH]; intros l; simpl; [tauto|].
  destruct l as [|y l]; simpl; [tauto|]. intros H; right; now apply IH.
Qed.

Lemma slice_In (l : list Z) (i j x : Z) : In x (slice l i j) -> In x l.
Proof. unfold slice. intros H. eapply skipn_In, firstn_In, H. Qed.

Lemma sum_nonneg (l : list Z) : Forall (fun x => 0 <= x) l -> 0 <= sum l.
Proof.
  induction 1 as [|x l Hx _ IH]; [rewrite sum_nil; lia|].
  rewrite sum_cons. lia.
Qed.

(** With entries that are not negative, a longer slice from the same start
    sums to no less. *)
Lemma sum_slice_mono (l : list Z) (i j j' : Z) :
  Forall (fun x => 0 <= x) l ->
  0 <= i -> i <= j -> j <= j' ->
  sum (slice l i j) <= sum (slice l i j').
Proof.
  intros Hl Hi Hij Hjj. rewrite (slice_split l i j j') by assumption.
  rewrite sum_app. assert (0 <= sum (slice l j j')); [|lia].
  apply sum_nonneg, Forall_forall. intros x Hx.
  rewrite Forall_forall in Hl. eapply Hl, slice_In, Hx.
Qed.

(** [len], [slice] and [sum] on the empty list. *)
Lemma slice_nil (i j : Z) : slice [] i j = [].
Proof. unfold slice. now rewrite skipn_nil, firstn_nil. Qed.

(** ** [longest_sum_of_consecutive_primes]: what it hands back *)

Section LongestFacts.
Variable primes : list Z.
Variable target : Z.

(** The pair changes only at a slice that passes both tests. *)
Lemma inner_loop_unchanged (i : Z) (js : list Z) (best : Z * Z) :
  (forall j, In j js ->
     is_prime (sum (slice primes i j)) = true ->
     target < sum (slice primes i j)) ->
  inner_loop primes target i js best = best.
Proof.
  induction js as [|j js IH]; intros H; simpl; [reflexivity|].
  destruct (Z.gtb_spec (sum (slice primes i j)) target) as [Hgt|Hle];
    [reflexivity|].
  destruct (is_prime (sum (slice primes i j))) eqn:Hp.
  - specialize (H j (or_introl eq_refl) Hp). lia.
  - simpl. apply IH. intros j' Hj'. apply H. now right.
Qed.

Lemma outer_loop_unchanged (ixs : list Z) (best : Z * Z) :
  (forall i j, In i ixs -> In j (range (i + snd best) (len primes)) ->
     is_prime (sum (slice primes i j)) = true ->
     target < sum (slice primes i j)) ->
  outer_loop primes target ixs best = best.
Proof.
  induction ixs as [|i ixs IH]; intros H; simpl; [reflexivity|].
  rewrite inner_loop_unchanged.
  - apply IH. intros i' j Hi'. apply H. now right.
  - intros j Hj. apply H; [now left | exact Hj].
Qed.

End LongestFacts.

(** C10: when no run of consecutive entries of the list sums to a prime that
    does not exceed [target], the function hands back the pair [(0, 0)] it
    started from.  The empty list is such a list (see the witness). *)
Theorem longest_sum_nothing_found (primes : list Z) (target : Z) :
  (forall i j, 0 <= i <= j -> j <= len primes ->
     is_prime (sum (slice primes i j)) = true ->
     target < sum (slice primes i j)) ->
  longest_sum_of_consecutive_primes primes target = (0, 0).
Proof.
  intros H. unfold longest_sum_of_consecutive_primes.
  apply outer_loop_unchanged. intros i j Hi Hj.
  apply range_In in Hi. apply range_In in Hj. simpl in Hj.
  apply H; lia.
Qed.

Lemma longest_sum_nothing_found_witness :
  longest_sum_of_consecutive_primes [] 1000 = (0, 0).
Proof.
  apply (longest_sum_nothing_found [] 1000).
  intros i j _ _. rewrite slice_nil. simpl. discriminate.
Defined.

(** A list with entries and yet no qualifying run: the sums of its runs are
    0, 4, 6, 8, 10, 14 and 18. *)
Example longest_sum_of_evens :
  longest_sum_of_consecutive_primes [4; 6; 8] 1000 = (0, 0).
Proof. reflexivity. Qed.

(** ** [longest_sum_of_consecutive_primes]: the longest examined run *)

Section LongestRuns.
Variable primes : list Z.
Variable target : Z.
Hypothesis primes_nonneg : Forall (fun x => 0 <= x) primes.

Lemma inner_loop_runs (i : Z) (k : nat) :
  0 <= i ->
  forall (j0 : Z) (best : Z * Z),
  i <= j0 -> j0 + Z.of_nat k = len primes ->
  best_inv primes target best ->
  (forall j, j < j0 -> prime_run primes target i j -> j - i <= snd best) ->
  let best' := inner_loop primes target i (range_from j0 k) best in
  best_inv primes target best' /\ snd best <= snd best' /\
  (forall j, j < len primes -> prime_run primes target i j ->
             j - i <= snd best').
Proof.
  intros Hi. induction k as [|k IH]; intros j0 best Hj0 Hlen Hinv Hseen; simpl.
  - repeat split; [apply Hinv | apply Hinv | lia |].
    intros j Hj. apply Hseen. lia.
  - destruct (Z.gtb_spec (sum (slice primes i j0)) target) as [Hgt|Hle].
    + repeat split; [apply Hinv | apply Hinv | lia |].
      intros j Hj Hrun. destruct (Z.lt_ge_cases j j0) as [Hlt|Hge];
        [now apply Hseen|].
      destruct Hrun as (_ & _ & _ & Hsum & _).
      pose proof (sum_slice_mono primes i j0 j primes_nonneg Hi Hj0 Hge). lia.
    + destruct (is_prime (sum (slice primes i j0))) eqn:Hp; simpl.
      * destruct (Z.gtb_spec (j0 - i) (snd best)) as [Hlonger|Hshorter].
        -- assert (Hrun0 : prime_run primes target i j0)
             by (unfold prime_run; repeat split; try assumption; lia).
           assert (Hinv1 : best_inv primes target
                             (sum (slice primes i j0), j0 - i)).
           { split; simpl; [lia|]. right. exists i, j0.
             repeat split; try lia; apply Hrun0. }
           destruct (IH (j0 + 1) (sum (slice primes i j0), j0 - i)
                       ltac:(lia) ltac:(lia) Hinv1) as (H1 & H2 & H3).
           { simpl. intros j Hj _. lia. }
           simpl in H2.
           repeat split; [apply H1 | apply H1 | lia | exact H3].
        -- apply IH; try lia; exact Hinv.
      * apply IH; try lia; [exact Hinv|].
        intros j Hj Hrun. destruct (Z.eq_dec j j0) as [->|Hne].
        -- destruct Hrun as (_ & _ & _ & _ & Hp'). congruence.
        -- apply Hseen; [lia | exact Hrun].
Qed.

Lemma outer_loop_runs (k : nat) :
  forall (i0 : Z) (best : Z * Z),
  0 <= i0 -> i0 + Z.of_nat k = len primes ->
  best_inv primes target best ->
  (forall i j, i < i0 -> j < len primes -> prime_run primes target i j ->
               j - i <= snd best) ->
  let best' := outer_loop primes target (range_from i0 k) best in
  best_inv primes target best' /\
  (forall i j, j < len primes -> prime_run primes target i j ->
               j - i <= snd best').
Proof.
  induction k as [|k IH]; intros i0 best Hi0 Hlen Hinv Hseen; simpl.
  - split; [exact Hinv|]. intros i j Hj Hrun. apply Hseen; try assumption.
    destruct Hrun as (_ & Hij & _). lia.
  - set (best1 := inner_loop primes target i0
                    (range (i0 + snd best) (len primes)) best).
    assert (H1 : best_inv primes target best1 /\ snd best <= snd best1 /\
                 forall j, j < len primes -> prime_run primes target i0 j ->
                           j - i0 <= snd best1).
    { destruct (Z.le_gt_cases (i0 + snd best) (len primes)) as [Hin|Hout].
      - unfold best1, range.
        apply inner_loop_runs; try assumption; try lia.
        pose proof (proj1 Hinv). lia.
      - unfold best1. rewrite range_empty by lia. simpl.
        repeat split; [apply Hinv | apply Hinv | lia |].
        intros j Hj _. lia. }
    destruct H1 as (Hinv1 & Hgrow & Hrow).
    apply IH; try lia; [exact Hinv1|].
    intros i j Hi Hj Hrun. destruct (Z.eq_dec i i0) as [->|Hne].
    + now apply Hrow.
    + assert (Hlt : i < i0) by lia.
      pose proof (Hseen i j Hlt Hj Hrun). unfold best1 in Hgrow.
      eapply Z.le_trans; [eassumption | exact Hgrow].
Qed.

(** The answer for a list whose entries are not negative: no run that stops
    before the last entry and sums to a prime within [target] is longer than
    [max_length], and unless nothing was found [max_prime] is the sum of such
    a run of [max_length] entries. *)
Lemma longest_sum_examined :
  let best := longest_sum_of_consecutive_primes primes target in
  (forall i j, j < len primes -> prime_run primes target i j ->
               j - i <= snd best) /\
  (best = (0, 0) \/
   exists i j, prime_run primes target i j /\ j < len primes /\
               snd best = j - i /\ fst best = sum (slice primes i j)).
Proof.
  unfold longest_sum_of_consecutive_primes, range.
  destruct (outer_loop_runs (Z.to_nat (len primes - 0)) 0 (0, 0))
    as [Hinv Hmax]; try lia.
  - pose proof (len_nonneg primes). lia.
  - split; simpl; [lia | now left].
  - intros i j Hi _ Hrun. destruct Hrun as (Hi' & _). lia.
  - split; [exact Hmax | apply Hinv].
Qed.
End LongestRuns.

(** ** The last entry of the list is never read

    [j] stops at [len(primes) - 1], and [primes[i:j]] leaves out position
    [j]: no slice the function sums reaches the last entry. *)

Lemma slice_app_front (l : list Z) (x : Z) (i j : Z) :
  0 <= i -> j <= len l -> slice (l ++ [x]) i j = slice l i j.
Proof.
  intros Hi Hj. unfold slice, len in *.
  destruct (Z.le_gt_cases j i) as [Hle|Hgt].
  - replace (Z.to_nat j - Z.to_nat i)%nat with O by lia. reflexivity.
  - rewrite skipn_app.
    replace (Z.to_nat i - length l)%nat with O by lia. simpl.
    rewrite firstn_app, length_skipn.
    replace (Z.to_nat j - Z.to_nat i - (length l - Z.to_nat i))%nat
      with O by lia.
    simpl. now rewrite app_nil_r.
Qed.

Section LongestExt.
Variables primes1 primes2 : list Z.
Variable target : Z.
Hypothesis same_len : len primes1 = len primes2.
Hypothesis same_slices :
  forall i j, 0 <= i -> j < len primes1 ->
              slice primes1 i j = slice primes2 i j.

Lemma inner_loop_ext (i : Z) (js : list Z) (best : Z * Z) :
  0 <= i -> (forall j, In j js -> j < len primes1) ->
  inner_loop primes1 target i js best = inner_loop primes2 target i js best.
Proof.
  intros Hi. revert best; induction js as [|j js IH]; intros best Hjs; simpl;
    [reflexivity|].
  rewrite (same_slices i j Hi) by (apply Hjs; now left).
  rewrite !IH by (intros j' Hj'; apply Hjs; now right). reflexivity.
Qed.

Lemma outer_loop_ext (ixs : list Z) (best : Z * Z) :
  (forall i, In i ixs -> 0 <= i) ->
  outer_loop primes1 target ixs best = outer_loop primes2 target ixs best.
Proof.
  revert best; induction ixs as [|i ixs IH]; intros best Hixs; simpl;
    [reflexivity|].
  rewrite <- same_len, inner_loop_ext.
  - apply IH. intros i' Hi'. apply Hixs. now right.
  - apply Hixs. now left.
  - intros j Hj. apply range_In in Hj. lia.
Qed.
End LongestExt.

Lemma longest_sum_ignores_last (l : list Z) (x y : Z) (target : Z) :
  longest_sum_of_consecutive_primes (l ++ [x]) target =
  longest_sum_of_consecutive_primes (l ++ [y]) target.
Proof.
  unfold longest_sum_of_consecutive_primes.
  assert (Hlen : forall z, len (l ++ [z]) = len l + 1).
  { intros z. unfold len. rewrite length_app. simpl. lia. }
  rewrite (outer_loop_ext (l ++ [x]) (l ++ [y])).
  - now rewrite !Hlen.
  - now rewrite !Hlen.
  - intros i j Hi Hj. rewrite Hlen in Hj.
    rewrite !slice_app_front by lia. reflexivity.
  - intros i Hi. apply range_In in Hi. lia.
Qed.

(** For [target = 2] the list of primes is [[2]]: its one entry is a run of
    length 1 that sums to a prime within [target], and the function hands
    back [(0, 0)]. *)
Example longest_sum_misses_last_run :
  generate_primes 2 = [2] /\
  prime_run [2] 2 0 1 /\
  longest_sum_of_consecutive_primes [2] 2 = (0, 0).
Proof.
  split; [reflexivity|]. split; [|reflexivity].
  unfold prime_run. repeat split; try reflexivity; vm_compute; discriminate.
Qed.

(** C4 (as stated, refuted): the pair handed back is not always the sum and
    the length of a longest run of consecutive entries that sums to a prime
    within [target].  For [target = 0] the list of primes is empty, no run
    qualifies, and the pair is [(0, 0)]: 0 is no prime.  For [target = 2] the
    run [[2]] qualifies and the pair is [(0, 0)] again. *)
Lemma longest_sum_not_longest_run :
  ~ longest_run (generate_primes 0) 0
      (longest_sum_of_consecutive_primes (generate_primes 0) 0) /\
  ~ longest_run (generate_primes 2) 2
      (longest_sum_of_consecutive_primes (generate_primes 2) 2).
Proof.
  split.
  - intros [(i & j & Hrun & _) _]. destruct Hrun as (_ & _ & _ & _ & Hp).
    change (generate_primes 0) with (@nil Z) in Hp.
    rewrite slice_nil in Hp. discriminate Hp.
  - intros [_ Hmax].
    destruct longest_sum_misses_last_run as (Hgen & Hrun & Hval).
    rewrite Hgen, Hval in Hmax. specialize (Hmax 0 1 Hrun). simpl in Hmax. lia.
Qed.

Example longest_sum_100 :
  longest_sum_of_consecutive_primes (generate_primes 100) 100 = (41, 6) /\
  longest_sum_of_consecutive_primes (generate_primes 1000) 1000 = (953, 21).
Proof. split; vm_compute; reflexivity. Qed.

(** ** The double loop comes to an end *)

Section MachineFacts.
Variable primes : list Z.
Variable target : Z.

Let step := longest_step primes target.

Lemma inner_loop_snd_grows (i : Z) (js : list Z) (best : Z * Z) :
  snd best <= snd (inner_loop primes target i js best).
Proof.
  revert best; induction js as [|j js IH]; intros best; simpl; [lia|].
  destruct (sum (slice primes i j) >? target); [lia|].
  destruct (is_prime (sum (slice primes i j))); simpl; [|apply IH].
  destruct (Z.gtb_spec (j - i) (snd best)) as [Hgt|Hle]; [|apply IH].
  specialize (IH (sum (slice primes i j), j - i)). simpl in IH. lia.
Qed.

(** The inner loop: from the test of [j0], at most one step per value left
    for [j] and one more lead to the next test of the outer loop, with the
    pair the inner loop computes. *)
Lemma inner_steps (i : Z) (k : nat) :
  forall (j0 : Z) (best : Z * Z),
  Z.to_nat (len primes - j0) = k ->
  exists m, (m <= S k)%nat /\
    rounds step m (AtInner i j0, best) =
    inl (AtOuter (i + 1),
         inner_loop primes target i (range j0 (len primes)) best).
Proof.
  induction k as [|k IH]; intros j0 best Hk.
  - exists 1%nat. split; [lia|]. simpl.
    destruct (Z.ltb_spec j0 (len primes)) as [Hlt|Hge]; [lia|].
    rewrite range_empty by lia. reflexivity.
  - assert (Hlt : j0 < len primes) by lia.
    rewrite (range_cons j0 (len primes) Hlt). simpl inner_loop.
    destruct (Z.gtb_spec (sum (slice primes i j0)) target) as [Hgt|Hle].
    + exists 1%nat. split; [lia|]. simpl.
      destruct (Z.ltb_spec j0 (len primes)); [|lia].
      destruct (Z.gtb_spec (sum (slice primes i j0)) target); [|lia].
      reflexivity.
    + set (best1 := if is_prime (sum (slice primes i j0)) && (j0 - i >? snd best)
                    then (sum (slice primes i j0), j0 - i) else best).
      destruct (IH (j0 + 1) best1 ltac:(lia)) as (m & Hm & Hrun).
      exists (S m). split; [lia|]. simpl.
      destruct (Z.ltb_spec j0 (len primes)); [|lia].
      destruct (Z.gtb_spec (sum (slice primes i j0)) target); [lia|].
      unfold best1 in Hrun. fold step.
      destruct (is_prime (sum (slice primes i j0)) && (j0 - i >? snd best));
        exact Hrun.
Qed.

(** The outer loop: from the test of [i0], with [k] values left for [i]. *)
Lemma outer_steps (k : nat) :
  forall (i0 : Z) (best : Z * Z),
  0 <= i0 -> 0 <= snd best -> i0 + Z.of_nat k = len primes ->
  exists m, (m <= k * (length primes + 2) + 1)%nat /\
    rounds step m (AtOuter i0, best) =
    inr (outer_loop primes target (range_from i0 k) best).
Proof.
  induction k as [|k IH]; intros i0 best Hi0 Hb Hk.
  - exists 1%nat. split; [lia|]. simpl.
    destruct (Z.ltb_spec i0 (len primes)); [lia | reflexivity].
  - set (best1 := inner_loop primes target i0
                    (range (i0 + snd best) (len primes)) best).
    assert (Hb1 : 0 <= snd best1).
    { pose proof (inner_loop_snd_grows i0
                    (range (i0 + snd best) (len primes)) best).
      unfold best1. lia. }
    destruct (inner_steps i0 (Z.to_nat (len primes - (i0 + snd best)))
                (i0 + snd best) best eq_refl) as (m1 & Hm1 & Hrun1).
    destruct (IH (i0 + 1) best1 ltac:(lia) Hb1 ltac:(lia)) as (m2 & Hm2 & Hrun2).
    exists (S (m1 + m2)). split.
    + unfold len in *. nia.
    + simpl. destruct (Z.ltb_spec i0 (len primes)); [|lia].
      fold step. rewrite rounds_add, Hrun1. exact Hrun2.
Qed.

Lemma longest_sum_fuel_result :
  longest_sum_fuel (longest_steps_bound primes) primes target =
  Some (longest_sum_of_consecutive_primes primes target).
Proof.
  unfold longest_sum_fuel, longest_steps_bound,
    longest_sum_of_consecutive_primes, range.
  rewrite iterate_rounds.
  destruct (outer_steps (Z.to_nat (len primes - 0)) 0 (0, 0))
    as (m & Hm & Hrun); simpl; try lia.
  { pose proof (len_nonneg primes). lia. }
  fold step. rewrite (rounds_more step m _ _ _ Hrun); [reflexivity|].
  rewrite to_pos_to_nat by (pose proof (len_nonneg primes); nia).
  unfold len in *. nia.
Qed.

(** More steps than the bound change nothing. *)
Lemma longest_sum_fuel_enough (fuel : positive) :
  (longest_steps_bound primes <= fuel)%positive ->
  longest_sum_fuel fuel primes target =
  Some (longest_sum_of_consecutive_primes primes target).
Proof.
  intros Hf. pose proof longest_sum_fuel_result as H.
  unfold longest_sum_fuel in H |- *. rewrite iterate_rounds in H |- *.
  fold step in H |- *.
  destruct (rounds step (Pos.to_nat (longest_steps_bound primes))
              (AtOuter 0, (0, 0))) as [c|r] eqn:E; [discriminate|].
  rewrite (rounds_more step _ (Pos.to_nat fuel) _ _ E) by lia.
  exact H.
Qed.

Lemma longest_step_indices (c : point * (Z * Z)) :
  indices_in_list primes c ->
  match step c with
  | inl c' => indices_in_list primes c'
  | inr _ => True
  end.
Proof.
  destruct c as [[i|i j] best]; unfold indices_in_list; simpl;
    intros [Hb Hidx].
  - destruct (Z.ltb_spec i (len primes)); simpl; [lia | exact I].
  - destruct (Z.ltb_spec j (len primes)); simpl; [|lia].
    destruct (sum (slice primes i j) >? target); simpl; [lia|].
    destruct (is_prime (sum (slice primes i j))); simpl; [|lia].
    destruct (Z.gtb_spec (j - i) (snd best)); simpl; lia.
Qed.

Lemma longest_sum_indices (n : nat) (c : point * (Z * Z)) :
  rounds step n (AtOuter 0, (0, 0)) = inl c -> indices_in_list primes c.
Proof.
  intros Hc.
  pose proof (rounds_invariant step (indices_in_list primes) (fun _ => True)
                longest_step_indices n (AtOuter 0, (0, 0))) as H.
  rewrite Hc in H. apply H. unfold indices_in_list. simpl.
  pose proof (len_nonneg primes). lia.
Qed.
End MachineFacts.

(** C7: the double loop is bounded.  For every list [primes] and every
    integer [target] the run of [longest_sum_of_consecutive_primes], taken
    one test at a time, returns within [(len + 1) * (len + 2)] steps, and
    what it returns is the function's value; at every test on the way [i]
    is between 0 and the length of the list and [j] starts at or after [i],
    so that in the body of the inner loop both are positions of the list. *)
Theorem longest_sum_terminates (primes : list Z) (target : Z) :
  longest_sum_fuel (longest_steps_bound primes) primes target =
    Some (longest_sum_of_consecutive_primes primes target) /\
  forall (n : nat) (c : point * (Z * Z)),
    rounds (longest_step primes target) n (AtOuter 0, (0, 0)) = inl c ->
    indices_in_list primes c.
Proof.
  split; [apply longest_sum_fuel_result | apply longest_sum_indices].
Qed.

Example longest_sum_fuel_100 :
  longest_sum_fuel 100 (generate_primes 100) 100 = Some (41, 6) /\
  longest_sum_fuel 50 (generate_primes 100) 100 = None.
Proof. split; reflexivity. Qed.

(** ** The Rust [is_prime] against the Python one *)

Section RustFacts.
Variable mode : Rust.build.
Variable n : Z.
Hypothesis n_u32 : 0 <= n <= Rust.u32_max.

Lemma rust_u32_of_small (x : Z) :
  x <= Rust.u32_max -> Rust.u32_of mode x = Some x.
Proof.
  intros H. unfold Rust.u32_of. destruct (Z.leb_spec x Rust.u32_max); [reflexivity | lia].
Qed.

(** A round leaves the loop or moves [i] one up, below [n]. *)
Lemma rust_round_variant (i : Z) :
  2 <= i <= n ->
  match Rust.is_prime_round mode n i with
  | inl i' => 2 <= i' <= n /\ (Z.to_nat (n - i') < Z.to_nat (n - i))%nat
  | inr _ => True
  end.
Proof.
  intros Hi. unfold Rust.is_prime_round.
  destruct (Rust.u32_of mode (i * i)) as [sq|]; [|exact I].
  destruct (sq <=? n); [|exact I].
  destruct (Z.eqb_spec i 0); [exact I|].
  destruct (Z.eqb_spec (n mod i) 0) as [|Hm]; [exact I|].
  assert (i <> n) by (intros ->; apply Hm, Z_mod_same_full).
  rewrite rust_u32_of_small by lia. lia.
Qed.

Lemma rust_is_prime_loop_total (k : nat) :
  1 < n -> (Z.to_nat n <= k)%nat ->
  exists r, rounds (Rust.is_prime_round mode n) k 2 = inr r.
Proof.
  intros Hn Hk.
  apply (rounds_variant (Rust.is_prime_round mode n)
           (fun i => 2 <= i <= n) (fun i => Z.to_nat (n - i))
           rust_round_variant); lia.
Qed.

(** Fuel [n] is enough in either build. *)
Lemma rust_is_prime_fuel_enough (fuel : positive) :
  (Z.to_pos n <= fuel)%positive ->
  Rust.is_prime_fuel mode fuel n = Some (Rust.is_prime mode n).
Proof.
  intros Hf. unfold Rust.is_prime, Rust.is_prime_fuel.
  destruct (Z.leb_spec n 1) as [Hn|Hn]; [reflexivity|].
  rewrite !iterate_rounds.
  destruct (rust_is_prime_loop_total (Pos.to_nat (Z.to_pos n))) as (r & Hr);
    [lia | lia |].
  rewrite Hr, (rounds_more _ _ (Pos.to_nat fuel) _ _ Hr) by lia.
  reflexivity.
Qed.

(** While the candidates stay at or below a bound [D <= 65535] that the loop
    cannot pass, the squares fit a [u32] and the two loops move together. *)
Lemma rust_rounds_agree (D : Z) (k : nat) :
  D <= 65535 ->
  (forall i, 2 <= i <= D -> i * i <= n -> n mod i <> 0 -> i < D) ->
  forall (i : Z) (c : N), 2 <= i <= D ->
  match rounds (is_prime_round n) k (i, c),
        rounds (Rust.is_prime_round mode n) k i with
  | inl (i1, _), inl i2 => i1 = i2 /\ 2 <= i1 <= D
  | inr (b, _), inr r => r = Rust.Value b
  | _, _ => False
  end.
Proof.
  intros HD Hstop. induction k as [|k IH]; intros i c Hi; simpl; [lia|].
  unfold is_prime_round, Rust.is_prime_round.
  rewrite rust_u32_of_small by (unfold Rust.u32_max; nia).
  destruct (Z.leb_spec (i * i) n) as [Hsq|Hsq]; [|reflexivity].
  destruct (Z.eqb_spec i 0); [lia|].
  destruct (Z.eqb_spec (n mod i) 0) as [Hm|Hm]; [reflexivity|].
  specialize (Hstop i Hi Hsq Hm).
  rewrite rust_u32_of_small by (unfold Rust.u32_max; lia).
  apply IH. lia.
Qed.

Lemma rust_is_prime_agrees_upto (D : Z) :
  D <= 65535 -> 2 <= D ->
  (forall i, 2 <= i <= D -> i * i <= n -> n mod i <> 0 -> i < D) ->
  Rust.is_prime mode n = Rust.Value (is_prime n).
Proof.
  intros HD HD2 Hstop.
  unfold Rust.is_prime, Rust.is_prime_fuel, is_prime, is_prime_run, is_prime_fuel.
  destruct (Z.leb_spec n 1) as [Hn|Hn]; [reflexivity|].
  rewrite !iterate_rounds.
  pose proof (rust_rounds_agree D (Pos.to_nat (Z.to_pos n)) HD Hstop 2 0%N
                ltac:(lia)) as H.
  destruct (is_prime_loop_total n (Pos.to_nat (Z.to_pos n))) as (res & Hres & _);
    [lia | lia |].
  rewrite Hres in *. destruct res as [b c].
  destruct (rounds (Rust.is_prime_round mode n) _ 2) as [i|r]; [contradiction|].
  simpl. exact H.
Qed.

(** Below [65535^2], and at every composite [u32], the transcription gives
    the answer of the original. *)
Lemma rust_is_prime_agrees :
  n < 65535 * 65535 \/ is_prime n = false ->
  Rust.is_prime mode n = Rust.Value (is_prime n).
Proof.
  intros [Hsmall|Hcomp].
  - apply (rust_is_prime_agrees_upto 65535); [lia | lia |].
    intros i Hi Hsq _. nia.
  - destruct (Z.le_gt_cases n 1) as [Hn|Hn].
    + unfold Rust.is_prime, Rust.is_prime_fuel, is_prime.
      rewrite is_prime_small by exact Hn.
      destruct (Z.leb_spec n 1); [reflexivity | lia].
    + pose proof (is_prime_run_post n Hn) as Hp.
      unfold is_prime in Hcomp. destruct (is_prime_run n) as [b c].
      simpl in Hcomp. subst b. destruct Hp as (d & Hd & Hdd & Hm & _).
      assert (d <= 65535) by (unfold Rust.u32_max in n_u32; nia).
      apply (rust_is_prime_agrees_upto d); try lia.
      intros i Hi _ Hmi.
      assert (i <> d) by (intros ->; contradiction). lia.
Qed.
End RustFacts.

(** A loop that only counts up for [k] rounds is [k] further on. *)
Lemma rounds_count_up {R : Type} (f : Z -> Z + R) (k : nat) :
  forall i : Z,
  (forall i', i <= i' < i + Z.of_nat k -> f i' = inl (i' + 1)) ->
  rounds f k i = inl (i + Z.of_nat k).
Proof.
  induction k as [|k IH]; intros i H; simpl rounds.
  - f_equal. lia.
  - rewrite (H i) by lia. rewrite IH.
    + f_equal. lia.
    + intros i' Hi'. apply H. lia.
Qed.

Lemma prime_no_divisor (n i : Z) : Z.prime n -> 1 < i < n -> n mod i <> 0.
Proof.
  intros [_ Hp] Hi Hm. apply (Hp i Hi). apply Z.mod_divide; [lia | exact Hm].
Qed.

(** *** With overflow checks: a prime at or above [65535^2] panics

    The candidates 2, ..., 65535 all pass, and the square of 65536 does not
    fit a [u32]. *)
Lemma rust_debug_panics (n : Z) :
  Z.prime n -> 65535 * 65535 <= n <= Rust.u32_max ->
  Rust.is_prime Rust.Debug n = Rust.Panic.
Proof.
  intros Hp Hn. unfold Rust.is_prime, Rust.is_prime_fuel.
  destruct (Z.leb_spec n 1); [lia|]. rewrite iterate_rounds.
  assert (Hup : rounds (Rust.is_prime_round Rust.Debug n) (Z.to_nat 65534) 2
                = inl 65536).
  { replace 65536 with (2 + Z.of_nat (Z.to_nat 65534)) by lia.
    apply rounds_count_up.
    intros i Hi. unfold Rust.is_prime_round.
    assert (Hi' : 2 <= i <= 65535) by lia.
    rewrite rust_u32_of_small by (unfold Rust.u32_max; nia).
    destruct (Z.leb_spec (i * i) n); [|nia].
    destruct (Z.eqb_spec i 0); [lia|].
    destruct (Z.eqb_spec (n mod i) 0) as [Hm|_].
    - exfalso. apply (prime_no_divisor n i Hp); [nia | exact Hm].
    - rewrite rust_u32_of_small by (unfold Rust.u32_max; lia). reflexivity. }
  assert (Hout : rounds (Rust.is_prime_round Rust.Debug n)
                   (Z.to_nat 65534 + 1) 2 = inr Rust.Panic).
  { rewrite rounds_add, Hup. reflexivity. }
  rewrite (rounds_more _ _ (Pos.to_nat (Z.to_pos n)) _ _ Hout); [reflexivity|].
  lia.
Qed.

(** *** Without overflow checks: the prime [2^32 - 5]

    A square modulo [2^32] is 0, 1, 4 or 9 modulo 16, so it is never one of
    the four numbers above [2^32 - 5]: the loop condition holds at every
    candidate, and the loop is only left when [i] has reached [n] itself. *)
Lemma square_mod_16 (i : Z) :
  let r := (i * i) mod 16 in r = 0 \/ r = 1 \/ r = 4 \/ r = 9.
Proof.
  simpl. rewrite Z.mul_mod by lia.
  assert (H : 0 <= i mod 16 < 16) by (apply Z.mod_pos_bound; lia).
  assert (Hc : i mod 16 = 0 \/ i mod 16 = 1 \/ i mod 16 = 2 \/ i mod 16 = 3 \/
               i mod 16 = 4 \/ i mod 16 = 5 \/ i mod 16 = 6 \/ i mod 16 = 7 \/
               i mod 16 = 8 \/ i mod 16 = 9 \/ i mod 16 = 10 \/ i mod 16 = 11 \/
               i mod 16 = 12 \/ i mod 16 = 13 \/ i mod 16 = 14 \/ i mod 16 = 15)
    by lia.
  repeat (destruct Hc as [Hc|Hc]; [rewrite Hc; vm_compute; tauto|]).
  rewrite Hc; vm_compute; tauto.
Qed.

Lemma wrapped_square_le (i : Z) :
  (i * i) mod (Rust.u32_max + 1) <= Rust.u32_max - 4.
Proof.
  unfold Rust.u32_max. simpl Z.add. simpl Z.sub.
  set (s := (i * i) mod 4294967296).
  assert (Hs : 0 <= s < 4294967296) by (apply Z.mod_pos_bound; lia).
  assert (Hm : s mod 16 = (i * i) mod 16).
  { unfold s. apply Z.mod_mod_divide. exists 268435456. reflexivity. }
  pose proof (square_mod_16 i) as H16. simpl in H16. rewrite <- Hm in H16.
  pose proof (Z.div_mod s 16 ltac:(lia)). lia.
Qed.

Lemma rust_release_square (i : Z) :
  exists sq, Rust.u32_of Rust.Release (i * i) = Some sq /\
             sq <= Rust.u32_max - 4.
Proof.
  unfold Rust.u32_of. destruct (Z.leb_spec (i * i) Rust.u32_max) as [Hle|Hgt].
  - exists (i * i). split; [reflexivity|].
    rewrite <- (Z.mod_small (i * i) (Rust.u32_max + 1)) by (unfold Rust.u32_max in *; nia).
    apply wrapped_square_le.
  - eexists. split; [reflexivity | apply wrapped_square_le].
Qed.

Lemma rust_release_false (n : Z) :
  Z.prime n -> Rust.u32_max - 4 <= n <= Rust.u32_max ->
  Rust.is_prime Rust.Release n = Rust.Value false.
Proof.
  intros Hp Hn. unfold Rust.is_prime, Rust.is_prime_fuel.
  unfold Rust.u32_max in Hn.
  destruct (Z.leb_spec n 1); [lia|]. rewrite iterate_rounds.
  assert (Hup : rounds (Rust.is_prime_round Rust.Release n) (Z.to_nat (n - 2)) 2
                = inl n).
  { replace n with (2 + Z.of_nat (Z.to_nat (n - 2))) at 3 by lia.
    apply rounds_count_up. intros i Hi. unfold Rust.is_prime_round.
    destruct (rust_release_square i) as (sq & -> & Hsq).
    unfold Rust.u32_max in Hsq.
    destruct (Z.leb_spec sq n); [|lia].
    destruct (Z.eqb_spec i 0); [lia|].
    destruct (Z.eqb_spec (n mod i) 0) as [Hm|_].
    - exfalso. apply (prime_no_divisor n i Hp); [lia | exact Hm].
    - rewrite (rust_u32_of_small Rust.Release) by (unfold Rust.u32_max; lia).
      reflexivity. }
  assert (Hout : rounds (Rust.is_prime_round Rust.Release n)
                   (Z.to_nat (n - 2) + 1) 2 = inr (Rust.Value false)).
  { rewrite rounds_add, Hup. simpl rounds. unfold Rust.is_prime_round.
    destruct (rust_release_square n) as (sq & -> & Hsq).
    unfold Rust.u32_max in Hsq.
    destruct (Z.leb_spec sq n); [|lia].
    destruct (Z.eqb_spec n 0); [lia|].
    rewrite Z_mod_same_full. reflexivity. }
  rewrite (rounds_more _ _ (Pos.to_nat (Z.to_pos n)) _ _ Hout); [reflexivity|].
  lia.
Qed.

(** C2: the claim is that the Rust [is_prime] answers as the Python one on
    every [u32].  At [n = 4294967291 = 2^32 - 5], a prime above [65535^2],
    the Python function answers [True]; the Rust function panics on
    [65536 * 65536] when built with overflow checks and answers [false]
    when built without. *)
Theorem rust_is_prime_differs :
  is_prime 4294967291 = true /\
  Rust.is_prime Rust.Debug 4294967291 = Rust.Panic /\
  Rust.is_prime Rust.Release 4294967291 = Rust.Value false.
Proof.
  pose proof is_prime_4294967291 as H.
  assert (Hp : Z.prime 4294967291) by (apply is_prime_iff_prime, H).
  split; [exact H|]. split.
  - apply rust_debug_panics; [exact Hp | unfold Rust.u32_max; lia].
  - apply rust_release_false; [exact Hp | unfold Rust.u32_max; lia].
Qed.

(** ** The double loop, evaluated on an initial part of the list *)

(** *** The double loop on suffixes *)

Lemma skipn_next (l : list Z) (j : Z) :
  0 <= j < len l ->
  exists p, skipn (Z.to_nat j) l = p :: skipn (Z.to_nat (j + 1)) l.
Proof.
  intros Hj. unfold len in Hj.
  destruct (skipn (Z.to_nat j) l) as [|p rest] eqn:Hs.
  - apply skipn_nil_iff in Hs. lia.
  - exists p. f_equal.
    replace (Z.to_nat (j + 1)) with (Z.to_nat j + 1)%nat by lia.
    rewrite skipn_plus, Hs. reflexivity.
Qed.

Lemma slice_one (l : list Z) (j p : Z) (rest : list Z) :
  0 <= j -> skipn (Z.to_nat j) l = p :: rest -> slice l j (j + 1) = [p].
Proof.
  intros Hj Hs. unfold slice. rewrite Hs.
  replace (Z.to_nat (j + 1) - Z.to_nat j)%nat with 1%nat by lia. reflexivity.
Qed.

Section FastFacts.
Variable primes : list Z.
Variable target : Z.

Lemma inner_fast_eq (i : Z) (k : nat) :
  0 <= i ->
  forall (j0 : Z) (best : Z * Z),
  i <= j0 -> Z.to_nat (len primes - j0) = k ->
  inner_loop primes target i (range_from j0 k) best =
  inner_fast target (skipn (Z.to_nat j0) primes)
    (sum (slice primes i j0)) (j0 - i) best.
Proof.
  intros Hi. induction k as [|k IH]; intros j0 best Hj0 Hk; simpl.
  - replace (skipn (Z.to_nat j0) primes) with (@nil Z); [reflexivity|].
    symmetry. apply skipn_nil_iff. unfold len in Hk. lia.
  - destruct (skipn_next primes j0 ltac:(lia)) as [p Hp]. rewrite Hp. simpl.
    assert (Hnext : sum (slice primes i (j0 + 1)) = sum (slice primes i j0) + p).
    { rewrite (slice_split primes i j0 (j0 + 1)) by lia.
      rewrite sum_app, (slice_one primes j0 p _ ltac:(lia) Hp), sum_cons, sum_nil.
      lia. }
    destruct (sum (slice primes i j0) >? target); [reflexivity|].
    replace (j0 - i + 1) with (j0 + 1 - i) by lia. rewrite <- Hnext.
    destruct (is_prime (sum (slice primes i j0)) && (j0 - i >? snd best));
      apply IH; lia.
Qed.

Lemma outer_fast_eq (k : nat) :
  forall (i0 : Z) (best : Z * Z),
  0 <= i0 -> 0 <= snd best -> i0 + Z.of_nat k = len primes ->
  outer_loop primes target (range_from i0 k) best =
  outer_fast target (skipn (Z.to_nat i0) primes) best.
Proof.
  induction k as [|k IH]; intros i0 best Hi0 Hb Hk; simpl.
  - replace (skipn (Z.to_nat i0) primes) with (@nil Z); [reflexivity|].
    symmetry. apply skipn_nil_iff. unfold len in Hk. lia.
  - destruct (skipn_next primes i0 ltac:(lia)) as [p Hp]. rewrite Hp.
    simpl outer_fast. rewrite <- Hp.
    set (ml := Z.to_nat (snd best)).
    assert (Hin : inner_loop primes target i0
                    (range (i0 + snd best) (len primes)) best =
                  inner_fast target (skipn ml (skipn (Z.to_nat i0) primes))
                    (sum (firstn ml (skipn (Z.to_nat i0) primes)))
                    (snd best) best).
    { unfold range. rewrite (inner_fast_eq i0 _ Hi0) by lia.
      replace (i0 + snd best - i0) with (snd best) by lia.
      rewrite <- skipn_plus.
      replace (Z.to_nat i0 + ml)%nat with (Z.to_nat (i0 + snd best))
        by (unfold ml; lia).
      do 2 f_equal. unfold slice, ml. f_equal. lia. }
    rewrite <- Hin.
    apply IH; try lia.
    pose proof (inner_loop_snd_grows primes target i0
                  (range (i0 + snd best) (len primes)) best). lia.
Qed.

Lemma longest_fast_eq :
  longest_sum_of_consecutive_primes primes target =
  outer_fast target primes (0, 0).
Proof.
  unfold longest_sum_of_consecutive_primes, range.
  rewrite (outer_fast_eq _ 0 (0, 0)); simpl; try lia.
  - reflexivity.
  - pose proof (len_nonneg primes). lia.
Qed.
End FastFacts.

(** *** What lies behind an initial part is not looked at *)

Lemma inner_cut_app (target : Z) (r1 r2 : list Z) :
  forall (s k : Z) (best b : Z * Z),
  inner_cut target r1 s k best = Some b ->
  inner_fast target (r1 ++ r2) s k best = b.
Proof.
  induction r1 as [|p r1 IH]; intros s k best b; simpl; [discriminate|].
  destruct (s >? target); [now intros [= <-]|].
  destruct (is_prime s && (k >? snd best)); apply IH.
Qed.

Lemma inner_cut_nonempty (target : Z) (rest : list Z) (s k : Z)
    (best b : Z * Z) :
  inner_cut target rest s k best = Some b -> rest <> [].
Proof. destruct rest; [discriminate | discriminate]. Qed.

Lemma inner_fast_break (target : Z) (rest : list Z) (s k : Z) (best : Z * Z) :
  target < s -> inner_fast target rest s k best = best.
Proof.
  intros Hs. destruct rest as [|p rest]; simpl; [reflexivity|].
  destruct (Z.gtb_spec s target); [reflexivity | lia].
Qed.

(** In an increasing list the sum of [m] entries does not go down when the
    window moves one place on. *)
Lemma window_shift (m : nat) :
  forall (x : Z) (l : list Z),
  StronglySorted Z.lt (x :: l) -> (m <= length l)%nat ->
  sum (firstn m (x :: l)) <= sum (firstn m l).
Proof.
  induction m as [|m IH]; intros x l Hs Hm; [simpl; lia|].
  destruct l as [|y l]; [simpl in Hm; lia|].
  change (firstn (S m) (x :: y :: l)) with (x :: firstn m (y :: l)).
  change (firstn (S m) (y :: l)) with (y :: firstn m l).
  rewrite !sum_cons.
  inversion Hs as [|? ? Hs' Hall]; subst.
  assert (x < y) by (inversion Hall; assumption).
  specialize (IH y l Hs' ltac:(simpl in Hm; lia)). lia.
Qed.

(** Once the window of [max_length] entries exceeds [target], or no such
    window is left, the outer loop changes nothing. *)
Lemma outer_fast_done (target : Z) (suffix : list Z) (best : Z * Z) :
  StronglySorted Z.lt suffix ->
  (length suffix <= Z.to_nat (snd best))%nat \/
  target < sum (firstn (Z.to_nat (snd best)) suffix) ->
  outer_fast target suffix best = best.
Proof.
  set (ml := Z.to_nat (snd best)).
  induction suffix as [|x l IH]; intros Hs Hd; [reflexivity|].
  simpl outer_fast. fold ml.
  inversion Hs as [|? ? Hs' _]; subst.
  destruct (Nat.le_gt_cases (length (x :: l)) ml) as [Hshort|Hlong].
  - rewrite (proj2 (skipn_nil_iff ml (x :: l)) Hshort). simpl inner_fast.
    apply IH; [exact Hs'|]. left. simpl in Hshort. lia.
  - destruct Hd as [Hd|Hd]; [lia|].
    rewrite inner_fast_break by exact Hd.
    apply IH; [exact Hs'|].
    destruct (Nat.eq_dec (length l) ml) as [Heq|Hne]; [left; lia|].
    right. pose proof (window_shift ml x l Hs ltac:(simpl in Hlong; lia)). lia.
Qed.

Lemma outer_cut_app (target : Z) (rest : list Z) (a : list Z) :
  forall (best r : Z * Z),
  StronglySorted Z.lt (a ++ rest) ->
  outer_cut target a best = Some r ->
  outer_fast target (a ++ rest) best = r.
Proof.
  induction a as [|x a IH]; intros best r Hs.
  - simpl. destruct (Z.to_nat (snd best) <? 0)%nat eqn:E; [|discriminate].
    apply Nat.ltb_lt in E. lia.
  - cbn [outer_cut]. set (ml := Z.to_nat (snd best)).
    destruct ((ml <? length (x :: a))%nat && (sum (firstn ml (x :: a)) >? target))
      eqn:Hdone.
    + intros [= <-]. apply andb_prop in Hdone. destruct Hdone as [Hl Hgt].
      apply Nat.ltb_lt in Hl. apply Z.gtb_lt in Hgt.
      apply outer_fast_done; [exact Hs|]. right. fold ml.
      rewrite firstn_app. replace (ml - length (x :: a))%nat with O by lia.
      simpl firstn at 2. rewrite app_nil_r. exact Hgt.
    + destruct (inner_cut target (skipn ml (x :: a)) (sum (firstn ml (x :: a)))
                  (snd best) best) as [best1|] eqn:Hin; [|discriminate].
      intros Hcut.
      assert (Hl : (ml < length (x :: a))%nat).
      { apply inner_cut_nonempty in Hin.
        destruct (Nat.le_gt_cases (length (x :: a)) ml) as [Hle|Hgt];
          [|exact Hgt].
        apply skipn_nil_iff in Hle. contradiction. }
      change ((x :: a) ++ rest) with (x :: (a ++ rest)).
      cbn [outer_fast]. fold ml.
      change (x :: (a ++ rest)) with ((x :: a) ++ rest).
      rewrite skipn_app, firstn_app.
      replace (ml - length (x :: a))%nat with O by lia.
      simpl skipn at 2. simpl firstn at 2. rewrite app_nil_r.
      rewrite (inner_cut_app _ _ _ _ _ _ _ Hin).
      apply IH; [|exact Hcut].
      inversion Hs; assumption.
Qed.

(** *** The list of primes, in two parts *)

Lemma range_from_app (k1 k2 : nat) (a : Z) :
  range_from a (k1 + k2) = range_from a k1 ++ range_from (a + Z.of_nat k1) k2.
Proof.
  revert a; induction k1 as [|k1 IH]; intros a; simpl.
  - f_equal. lia.
  - rewrite IH. do 3 f_equal. lia.
Qed.

Lemma range_app (a b c : Z) :
  a <= b -> b <= c -> range a c = range a b ++ range b c.
Proof.
  intros Hab Hbc. unfold range.
  replace (Z.to_nat (c - a)) with (Z.to_nat (b - a) + Z.to_nat (c - b))%nat
    by lia.
  rewrite range_from_app. do 2 f_equal. lia.
Qed.

Lemma generate_primes_split (B target : Z) :
  1 <= B <= target ->
  generate_primes target =
  generate_primes B ++ filter is_prime (range (B + 1) (target + 1)).
Proof.
  intros H. unfold generate_primes.
  rewrite (range_app 2 (B + 1) (target + 1)) by lia. apply filter_app.
Qed.

(** The value on the whole list, from an evaluation on the primes up to a
    smaller bound [B]. *)
Lemma longest_by_cut (B target : Z) (r : Z * Z) :
  1 <= B <= target ->
  outer_cut target (generate_primes B) (0, 0) = Some r ->
  longest_sum_of_consecutive_primes (generate_primes target) target = r.
Proof.
  intros HB Hcut. rewrite longest_fast_eq.
  pose proof (generate_primes_sorted target) as Hs. revert Hs.
  rewrite (generate_primes_split B target HB). intros Hs.
  apply outer_cut_app; assumption.
Qed.

Lemma slice_last_two (front : list Z) (a b : Z) :
  let l := front ++ [a; b] in
  slice l (len l - 2) (len l) = [a; b].
Proof.
  simpl. unfold slice, len. rewrite length_app. simpl length.
  replace (Z.to_nat (Z.of_nat (length front + 2) - 2)) with (length front + 0)%nat
    by lia.
  rewrite skipn_app, Nat.add_0_r, skipn_all.
  replace (length front - length front)%nat with O by lia.
  replace (Z.to_nat (Z.of_nat (length front + 2)) - length front)%nat
    with 2%nat by lia.
  reflexivity.
Qed.

Lemma generate_primes_last_two (target a b : Z) :
  2 <= a -> a <= target ->
  filter is_prime (range a (target + 1)) = [a; b] ->
  let primes := generate_primes target in
  sum (slice primes (len primes - 2) (len primes)) = a + b.
Proof.
  intros Ha Hat Htail. cbv zeta. unfold generate_primes.
  rewrite (range_app 2 a (target + 1)) by lia.
  rewrite filter_app, Htail.
  rewrite (slice_last_two (filter is_prime (range 2 a)) a b).
  rewrite !sum_cons, sum_nil. lia.
Qed.

(** ** The run of [main] *)

(** The evaluation: the double loop on the primes up to 4200, where every
    inner loop reaches its [break], and the primes from 999979 on. *)
Lemma pe50_cut :
  outer_cut 1000000 (generate_primes 4200) (0, 0) = Some (997651, 543).
Proof. vm_compute. reflexivity. Qed.

Lemma pe50_tail :
  filter is_prime (range 999979 (1000000 + 1)) = [999979; 999983].
Proof. vm_compute. reflexivity. Qed.

Lemma pe50_value :
  longest_sum_of_consecutive_primes (generate_primes 1000000) 1000000 =
    (997651, 543) /\
  sum (slice (generate_primes 1000000)
         (len (generate_primes 1000000) - 2)
         (len (generate_primes 1000000))) = 1999962.
Proof.
  split.
  - apply (longest_by_cut 4200 1000000); [split; discriminate | exact pe50_cut].
  - exact (generate_primes_last_two 1000000 999979 999983
             ltac:(discriminate) ltac:(discriminate) pe50_tail).
Qed.

(** A run that reaches the end of a list is as long as the list allows, or
    it holds the last two entries. *)
Lemma run_to_the_end (primes : list Z) (target i j : Z) :
  Forall (fun x => 0 <= x) primes ->
  prime_run primes target i j ->
  target < sum (slice primes (len primes - 2) (len primes)) ->
  j < len primes \/ j - i <= 1.
Proof.
  intros Hnn (Hi & Hij & Hj & Hsum & _) Hlast.
  destruct (Z.lt_ge_cases j (len primes)) as [Hlt|Hge]; [now left|].
  right. assert (j = len primes) by lia. subst j.
  destruct (Z.le_gt_cases (len primes - i) 1) as [Hle|Hgt]; [exact Hle|].
  exfalso.
  rewrite (slice_split primes i (len primes - 2) (len primes)) in Hsum by lia.
  rewrite sum_app in Hsum.
  assert (0 <= sum (slice primes i (len primes - 2))); [|lia].
  apply sum_nonneg, Forall_forall. intros x Hx.
  rewrite Forall_forall in Hnn. eapply Hnn, slice_In, Hx.
Qed.

(** From the pair handed back to what it means, for any list whose entries
    are not negative and whose last two entries together exceed [target]. *)
Lemma longest_sum_meaning (primes : list Z) (target mp ml : Z) :
  Forall (fun x => 0 <= x) primes ->
  longest_sum_of_consecutive_primes primes target = (mp, ml) ->
  1 <= ml ->
  target < sum (slice primes (len primes - 2) (len primes)) ->
  is_prime mp = true /\ mp <= target /\
  (exists i j, prime_run primes target i j /\ j - i = ml /\
               sum (slice primes i j) = mp) /\
  (forall i j, prime_run primes target i j -> j - i <= ml).
Proof.
  intros Hnn Hval Hml Hlast.
  pose proof (longest_sum_examined primes target Hnn) as [Hmax Hex].
  simpl in Hmax, Hex. rewrite Hval in Hmax, Hex. simpl in Hmax, Hex.
  destruct Hex as [Hex|(i & j & Hrun & Hj & Hlen & Hsum)].
  { injection Hex as _ ->. lia. }
  pose proof Hrun as (_ & _ & _ & Hle & Hp). rewrite <- Hsum in Hle, Hp.
  split; [exact Hp|]. split; [exact Hle|]. split.
  - exists i, j. repeat split; try apply Hrun; lia.
  - intros i' j' Hrun'.
    destruct (run_to_the_end primes target i' j' Hnn Hrun' Hlast) as [Hlt|Hshort].
    + now apply Hmax.
    + lia.
Qed.

(** C1 (as stated, refuted): the run on the bound one million does not
    return the pair [(997651, 21)]. *)
Lemma pe50_not_21 :
  longest_sum_of_consecutive_primes (generate_primes 1000000) 1000000 <>
  (997651, 21).
Proof.
  intros H.
  pose proof (eq_trans (eq_sym (proj1 pe50_value)) H) as Heq.
  discriminate Heq.
Qed.

(** C1 (amended): the run on the bound one million returns the pair
    [(997651, 543)].  997651 is a prime below one million, it is the sum of
    543 consecutive entries of the list of the primes up to one million, and
    no run of consecutive entries of that list that sums to a prime within
    one million is longer than 543. *)
Theorem pe50_answer :
  let primes := generate_primes 1000000 in
  longest_sum_of_consecutive_primes primes 1000000 = (997651, 543) /\
  Z.prime 997651 /\ 997651 < 1000000 /\
  (exists i j, prime_run primes 1000000 i j /\ j - i = 543 /\
               sum (slice primes i j) = 997651) /\
  (forall i j, prime_run primes 1000000 i j -> j - i <= 543).
Proof.
  intros primes. subst primes.
  destruct pe50_value as [Hval Hlast].
  destruct (longest_sum_meaning _ _ _ _ (generate_primes_nonneg 1000000) Hval)
    as (Hp & _ & Hex & Hmax).
  - apply Z.leb_le. reflexivity.
  - exact (eq_ind_r (fun s => 1000000 < s) (eq_refl : 1000000 < 1999962) Hlast).
  - split; [exact Hval|]. split; [apply is_prime_iff_prime; exact Hp|].
    split; [reflexivity|]. split; [exact Hex | exact Hmax].
Qed.

(** ** The longest run *)

Lemma prime_run_not_empty (primes : list Z) (target i j : Z) :
  prime_run primes target i j -> i < j.
Proof.
  intros (Hi & Hij & _ & _ & Hp).
  destruct (Z.eq_dec i j) as [->|Hne]; [|lia].
  unfold slice in Hp. rewrite Nat.sub_diag in Hp. discriminate Hp.
Qed.

(** C4 (amended): for every list whose entries are not negative (the list
    of the primes up to [target] is one) and every [target], the pair
    [(max_prime, max_length)] handed back is [(0, 0)], or else [max_length]
    is at least 1 and [max_prime] is a prime within [target] that is the sum
    of [max_length] consecutive entries; no run of consecutive entries that
    stops before the last entry and sums to a prime within [target] is
    longer than [max_length]; and when the last two entries together exceed
    [target], no such run anywhere in the list is longer than [max_length]
    (than 1, if nothing was found), so that a pair other than [(0, 0)] is
    the sum and the length of a longest run of the whole list. *)
Theorem longest_sum_finds_longest_run (primes : list Z) (target : Z) :
  Forall (fun x => 0 <= x) primes ->
  let best := longest_sum_of_consecutive_primes primes target in
  (best = (0, 0) \/
   1 <= snd best /\
   exists i j, prime_run primes target i j /\ j - i = snd best /\
               sum (slice primes i j) = fst best) /\
  (forall i j, prime_run primes target i j -> j < len primes ->
               j - i <= snd best) /\
  (target < sum (slice primes (len primes - 2) (len primes)) ->
   (forall i j, prime_run primes target i j ->
                j - i <= Z.max 1 (snd best)) /\
   (1 <= snd best -> longest_run primes target best)).
Proof.
  intros Hnn best.
  pose proof (longest_sum_examined primes target Hnn) as [Hmax Hex].
  fold best in Hmax, Hex.
  assert (Hfound : best = (0, 0) \/
            1 <= snd best /\
            exists i j, prime_run primes target i j /\ j - i = snd best /\
                        sum (slice primes i j) = fst best).
  { destruct Hex as [Hz|(i & j & Hrun & _ & Hlen & Hsum)]; [now left|].
    right. pose proof (prime_run_not_empty _ _ _ _ Hrun). split; [lia|].
    exists i, j. repeat split; try apply Hrun; lia || congruence. }
  split; [exact Hfound|]. split.
  - intros i j Hrun Hj. now apply Hmax.
  - intros Hlast.
    assert (Hall : forall i j, prime_run primes target i j ->
                               j - i <= Z.max 1 (snd best)).
    { intros i j Hrun.
      destruct (run_to_the_end primes target i j Hnn Hrun Hlast) as [Hj|Hshort].
      - specialize (Hmax i j Hj Hrun). lia.
      - lia. }
    split; [exact Hall|]. intros Hone. split.
    + destruct Hfound as [Hz|(_ & i & j & Hrun & Hlen & Hsum)].
      * rewrite Hz in Hone. simpl in Hone. lia.
      * exists i, j. repeat split; try apply Hrun; assumption.
    + intros i j Hrun. specialize (Hall i j Hrun). lia.
Qed.

Lemma longest_sum_finds_longest_run_witness :
  let primes := generate_primes 100 in
  let best := longest_sum_of_consecutive_primes primes 100 in
  (best = (0, 0) \/
   1 <= snd best /\
   exists i j, prime_run primes 100 i j /\ j - i = snd best /\
               sum (slice primes i j) = fst best) /\
  (forall i j, prime_run primes 100 i j -> j < len primes ->
               j - i <= snd best) /\
  (100 < sum (slice primes (len primes - 2) (len primes)) ->
   (forall i j, prime_run primes 100 i j ->
                j - i <= Z.max 1 (snd best)) /\
   (1 <= snd best -> longest_run primes 100 best)).
Proof.
  apply (longest_sum_finds_longest_run (generate_primes 100) 100).
  vm_compute. repeat constructor; discriminate.
Defined.

(** On the primes up to 100 the condition on the last two entries holds
    (89 + 97 exceeds 100) and a run is found: [(41, 6)] is the sum and the
    length of a longest run. *)
Example longest_run_100 :
  longest_run (generate_primes 100) 100 (41, 6).
Proof.
  assert (Hnn : Forall (fun x => 0 <= x) (generate_primes 100)).
  { vm_compute. repeat constructor; discriminate. }
  pose proof (longest_sum_examined (generate_primes 100) 100 Hnn) as [Hmax Hex].
  assert (Hval : longest_sum_of_consecutive_primes (generate_primes 100) 100
                 = (41, 6)) by (vm_compute; reflexivity).
  rewrite Hval in Hmax, Hex. simpl in Hmax, Hex.
  destruct (longest_sum_meaning (generate_primes 100) 100 41 6 Hnn Hval)
    as (_ & _ & Hrun & Hbest).
  - lia.
  - vm_compute. reflexivity.
  - split; [exact Hrun | exact Hbest].
Qed.
(** ** [overlay_untargeted_data] *)

Section FrameFacts.
Import DeepLCMS.

Lemma has_name_In (name : string) (names : list string) :
  has_name name names = true <-> In name names.
Proof.
  unfold has_name. rewrite existsb_exists. split.
  - intros (x & Hx & Heq). apply String.eqb_eq in Heq. now subst.
  - intros H. exists name. split; [exact H | apply String.eqb_refl].
Qed.

Lemma value_eqb_eq (v1 v2 : value) : value_eqb v1 v2 = true <-> v1 = v2.
Proof.
  destruct v1, v2; simpl; split; intros H;
    try discriminate H; try reflexivity.
  - apply Z.eqb_eq in H. now subst.
  - injection H as ->. apply Z.eqb_refl.
  - apply FloatAxioms.Leibniz.eqb_spec in H. now subst.
  - injection H as ->. now apply FloatAxioms.Leibniz.eqb_spec.
  - destruct b, b0; simpl in H; discriminate H || reflexivity.
  - injection H as ->. now destruct b0.
  - apply String.eqb_eq in H. now subst.
  - injection H as ->. apply String.eqb_refl.
Qed.

Lemma seen_In (v : value) (seen : list value) :
  existsb (value_eqb v) seen = true <-> In v seen.
Proof.
  rewrite existsb_exists. split.
  - intros (x & Hx & Heq). apply value_eqb_eq in Heq. now subst.
  - intros H. exists v. split; [exact H | now apply value_eqb_eq].
Qed.

Lemma subsequence_nil {A : Type} (l : list A) : subsequence [] l.
Proof. induction l; constructor; assumption. Qed.

Lemma subsequence_trans {A : Type} (l1 l2 l3 : list A) :
  subsequence l1 l2 -> subsequence l2 l3 -> subsequence l1 l3.
Proof.
  intros H12 H23. revert l1 H12.
  induction H23 as [|x l2 l3 H IH|x l2 l3 H IH]; intros l1 H12.
  - exact H12.
  - constructor. now apply IH.
  - inversion H12; subst; constructor; now apply IH.
Qed.

Lemma subsequence_In {A : Type} (l1 l2 : list A) (x : A) :
  subsequence l1 l2 -> In x l1 -> In x l2.
Proof.
  induction 1 as [|y l1 l2 H IH|y l1 l2 H IH]; simpl; intros Hx; auto.
  destruct Hx; auto.
Qed.

Lemma subsequence_filter {A : Type} (p : A -> bool) (l : list A) :
  subsequence (filter p l) l.
Proof.
  induction l as [|x l IH]; simpl; [constructor|].
  destruct (p x); constructor; exact IH.
Qed.

Lemma subsequence_map {A B : Type} (f : A -> B) (l1 l2 : list A) :
  subsequence l1 l2 -> subsequence (map f l1) (map f l2).
Proof. induction 1; simpl; constructor; assumption. Qed.

Lemma subsequence_sorted (l1 l2 : list nat) :
  subsequence l1 l2 -> StronglySorted lt l2 -> StronglySorted lt l1.
Proof.
  induction 1 as [|x l1 l2 H IH|x l1 l2 H IH]; intros Hs.
  - constructor.
  - apply IH. now inversion Hs.
  - inversion Hs as [|? ? Hs' Hall]; subst. constructor; [now apply IH|].
    rewrite Forall_forall in *. intros y Hy. apply Hall.
    eapply subsequence_In; eassumption.
Qed.

Lemma seq_sorted (a n : nat) : StronglySorted lt (seq a n).
Proof.
  revert a; induction n as [|n IH]; intros a; simpl; constructor.
  - apply IH.
  - apply Forall_forall. intros y Hy. apply in_seq in Hy. lia.
Qed.

(** [keep_rows] *)

Lemma keep_rows_subsequence {A : Type} (m : list bool) (l : list A) :
  subsequence (keep_rows m l) l.
Proof.
  revert l; induction m as [|b m IH]; intros [|x l]; simpl;
    try apply subsequence_nil.
  destruct b; constructor; apply IH.
Qed.

Lemma keep_rows_map {A : Type} (p : A -> bool) (l : list A) :
  keep_rows (map p l) l = filter p l.
Proof.
  induction l as [|x l IH]; simpl; [reflexivity|].
  rewrite IH. reflexivity.
Qed.

(** [drop_duplicates]: of the rows with one key the first is kept. *)

Variable key : list value -> value.

Lemma first_of_each_subsequence (seen : list value)
    (rs : list (nat * list value)) :
  subsequence (first_of_each key seen rs) rs.
Proof.
  revert seen; induction rs as [|r rs IH]; intros seen; simpl; [constructor|].
  destruct (existsb _ seen); constructor; apply IH.
Qed.

Lemma first_of_each_first (seen : list value) (rs : list (nat * list value)) :
  StronglySorted lt (map fst rs) ->
  forall r,
    In r (first_of_each key seen rs) <->
    In r rs /\ ~ In (key (snd r)) seen /\
    forall r0, In r0 rs -> key (snd r0) = key (snd r) -> (fst r <= fst r0)%nat.
Proof.
  revert seen; induction rs as [|r1 rs IH]; intros seen Hs r; simpl.
  - tauto.
  - inversion Hs as [|? ? Hs' Hall]; subst. rewrite Forall_forall in Hall.
    assert (Hlater : forall r0, In r0 rs -> (fst r1 < fst r0)%nat).
    { intros r0 H0. apply Hall. now apply in_map. }
    destruct (existsb (value_eqb (key (snd r1))) seen) eqn:Hseen.
    + apply seen_In in Hseen. rewrite (IH seen Hs' r). split.
      * intros (Hin & Hfresh & Hmin). split; [now right|]. split; [exact Hfresh|].
        intros r0 [<-|H0] Hk; [|now apply Hmin].
        exfalso. apply Hfresh. now rewrite <- Hk.
      * intros ([<-|Hin] & Hfresh & Hmin); [contradiction|].
        split; [exact Hin|]. split; [exact Hfresh|].
        intros r0 H0. apply Hmin. now right.
    + assert (Hnew : ~ In (key (snd r1)) seen).
      { intros H. apply seen_In in H. congruence. }
      simpl. rewrite (IH (key (snd r1) :: seen) Hs' r). split.
      * intros [<-|(Hin & Hfresh & Hmin)].
        -- split; [now left|]. split; [exact Hnew|].
           intros r0 [<-|H0] _; [lia|]. specialize (Hlater r0 H0). lia.
        -- split; [now right|]. split; [intros H; apply Hfresh; now right|].
           intros r0 [<-|H0] Hk; [|now apply Hmin].
           exfalso. apply Hfresh. left. exact Hk.
      * intros ([<-|Hin] & Hfresh & Hmin); [now left|]. right.
        split; [exact Hin|]. split.
        -- intros [Hk|H]; [|contradiction].
           specialize (Hmin r1 (or_introl eq_refl) Hk).
           specialize (Hlater r Hin). lia.
        -- intros r0 H0. apply Hmin. now right.
Qed.
End FrameFacts.

Section OverlayFacts.
Import DeepLCMS.

(** The columns that are read are the wanted ones, each once. *)
Lemma pick_positions (wanted header pre seen : list string) :
  (forall c,
     In c (pick (positions (length pre) seen header wanted) (pre ++ header))
     <-> In c header /\ In c wanted /\ ~ In c seen) /\
  NoDup (pick (positions (length pre) seen header wanted) (pre ++ header)).
Proof.
  revert pre seen; induction header as [|h header IH]; intros pre seen.
  - simpl. split; [tauto | constructor].
  - destruct (IH (pre ++ [h]) (h :: seen)) as [IHin IHnd].
    rewrite length_app, Nat.add_1_r, <- app_assoc in IHin, IHnd.
    simpl in IHin, IHnd. simpl positions.
    destruct (has_name h wanted && negb (has_name h seen)) eqn:Hc.
    + apply andb_prop in Hc. destruct Hc as [Hw Hs].
      apply has_name_In in Hw.
      assert (Hs' : ~ In h seen).
      { intros H. apply has_name_In in H. rewrite H in Hs. discriminate. }
      unfold pick in *. simpl map. rewrite nth_middle. split.
      * intros c. simpl. rewrite IHin. split.
        -- intros [<-|(Ht & Hcw & Hn)]; [tauto|]. tauto.
        -- intros ([<-|Ht] & Hcw & Hn); [now left|].
           destruct (string_dec h c) as [->|Hne]; [now left|]. right.
           split; [exact Ht|]. split; [exact Hcw|]. intros [H|H]; tauto.
      * constructor; [|exact IHnd]. intros H. apply IHin in H.
        destruct H as (_ & _ & H). apply H. now left.
    + split; [|exact IHnd]. intros c. rewrite IHin. split.
      * intros (Ht & Hcw & Hn). split; [now right|]. tauto.
      * intros ([<-|Ht] & Hcw & Hn).
        -- exfalso. apply has_name_In in Hcw. rewrite Hcw in Hc. simpl in Hc.
           apply negb_false_iff, has_name_In in Hc. contradiction.
        -- split; [exact Ht|]. split; [exact Hcw|]. intros [<-|H]; [|tauto].
           apply has_name_In in Hcw. rewrite Hcw in Hc. simpl in Hc.
           apply negb_false_iff, has_name_In in Hc. contradiction.
Qed.

Lemma combine_seq_fst {A : Type} (a : nat) (l : list A) :
  map fst (combine (seq a (length l)) l) = seq a (length l).
Proof.
  revert a; induction l as [|x l IH]; intros a; simpl; [reflexivity|].
  now rewrite IH.
Qed.

Lemma combine_seq_In {A : Type} (a : nat) (l : list A) (k : nat) (x : A) :
  In (k, x) (combine (seq a (length l)) l) ->
  (a <= k)%nat /\ nth_error l (k - a) = Some x.
Proof.
  revert a; induction l as [|y l IH]; intros a; simpl; [tauto|].
  intros [[= <- <-]|Hin].
  - split; [lia|]. now rewrite Nat.sub_diag.
  - apply IH in Hin. destruct Hin as [Hle Hnth]. split; [lia|].
    replace (k - a)%nat with (S (k - S a)) by lia. exact Hnth.
Qed.

(** What [read_csv] hands back, read off the file. *)
Lemma read_csv_inversion (file : csv) (skiprows : nat) (wanted : list string)
    (raw : frame) :
  read_csv file skiprows wanted = Returns raw ->
  exists header data,
    filter (fun line => negb (blank line)) (skipn skiprows file)
      = header :: data /\
    (forall name, In name wanted -> In name header) /\
    (forall line, In line data -> length line = length header) /\
    infer_all (map (fun p => map (fun line => nth p line ""%string) data)
                 (positions 0 [] header wanted)) = Some (dtypes raw) /\
    columns raw = pick (positions 0 [] header wanted) header /\
    rows raw =
      combine (seq 0 (length data))
        (map (fun line =>
                convert_all (dtypes raw)
                  (pick (positions 0 [] header wanted) line)) data).
Proof.
  unfold read_csv.
  destruct (filter _ (skipn skiprows file)) as [|header data];
    [discriminate|].
  destruct (forallb (fun name => has_name name header) wanted) eqn:Hall;
    cbn [negb]; [|discriminate].
  destruct (forallb (fun line => (length line =? length header)%nat) data)
    eqn:Hrect; cbn [negb]; [|discriminate].
  match goal with
  | |- context [Z.leb ?a ?b] => destruct (Z.leb a b)
  end; cbn [negb]; [|discriminate].
  destruct (infer_all _) as [ds|] eqn:Hds; [|discriminate].
  intros [= <-]. exists header, data. simpl.
  split; [reflexivity|]. split.
  { intros name Hn. rewrite forallb_forall in Hall.
    apply has_name_In, Hall, Hn. }
  split.
  { intros line Hl. rewrite forallb_forall in Hrect.
    apply Nat.eqb_eq, Hrect, Hl. }
  repeat split; assumption || reflexivity.
Qed.

Lemma read_csv_columns (file : csv) (skiprows : nat) (wanted : list string)
    (raw : frame) :
  read_csv file skiprows wanted = Returns raw ->
  (forall c, In c (columns raw) <-> In c wanted) /\ NoDup (columns raw).
Proof.
  intros H. apply read_csv_inversion in H.
  destruct H as (header & data & _ & Hwanted & _ & _ & Hcols & _).
  rewrite Hcols.
  destruct (pick_positions wanted header [] []) as [Hin Hnd].
  simpl in Hin, Hnd. split; [|exact Hnd].
  intros c. rewrite Hin. split; [tauto|]. intros Hc. auto.
Qed.

Lemma read_csv_labels (file : csv) (skiprows : nat) (wanted : list string)
    (raw : frame) :
  read_csv file skiprows wanted = Returns raw ->
  map fst (rows raw) = seq 0 (length (rows raw)).
Proof.
  intros H. apply read_csv_inversion in H.
  destruct H as (header & data & _ & _ & _ & _ & _ & Hrows).
  rewrite Hrows.
  rewrite <- (length_map (fun line => convert_all (dtypes raw)
                 (pick (positions 0 [] header wanted) line)) data) at 1.
  rewrite combine_seq_fst, length_combine, length_seq, length_map.
  now rewrite Nat.min_id.
Qed.

Lemma query_inversion (e : expression) (df df' : frame) :
  query e df = Returns df' ->
  exists m,
    e df = Mask m /\ length m = length (rows df) /\
    columns df' = columns df /\ dtypes df' = dtypes df /\
    rows df' = keep_rows m (rows df).
Proof.
  unfold query. destruct (e df) as [m|ex|]; try discriminate.
  destruct (length m =? length (rows df))%nat eqn:Hlen; [|discriminate].
  intros [= <-]. exists m. apply Nat.eqb_eq in Hlen. simpl. auto.
Qed.

Lemma lookup_at (names : list string) (name : string) (p : nat)
    (row : list value) :
  index_of name names = Some p -> lookup names row name = at_position p row.
Proof. intros H. unfold lookup. now rewrite H. Qed.

Lemma index_of_In (name : string) (names : list string) :
  In name names -> exists p, index_of name names = Some p.
Proof.
  induction names as [|h names IH]; simpl; [tauto|]. intros Hin.
  destruct (String.eqb name h) eqn:Heq; [now exists 0%nat|].
  destruct Hin as [->|Hin]; [now rewrite String.eqb_refl in Heq|].
  destruct (IH Hin) as [p ->]. now exists (S p).
Qed.

Lemma tag_query_inversion (df tagged : frame) :
  query tag_430_or_530 df = Returns tagged ->
  columns tagged = columns df /\ dtypes tagged = dtypes df /\
  rows tagged =
    filter (fun r => is_430_or_530
                       (lookup (columns df) (snd r) "annotation_tag__vs1_0_"))
      (rows df).
Proof.
  intros H. apply query_inversion in H.
  destruct H as (m & Hm & _ & Hc & Hd & Hr).
  split; [exact Hc|]. split; [exact Hd|]. rewrite Hr.
  unfold tag_430_or_530 in Hm.
  destruct (index_of "annotation_tag__vs1_0_" (columns df)) as [p|] eqn:Hp;
    [|discriminate].
  injection Hm as <-. rewrite keep_rows_map. apply filter_ext.
  intros r. now rewrite (lookup_at _ _ p).
Qed.

(** The frame of [overlay_untargeted_data], stage by stage. *)
Lemma load_frame_spec (query_str : expression) (file : csv) (df : frame) :
  load_frame query_str file = Returns df ->
  exists raw tagged m p,
    read_csv file 4 usecols = Returns raw /\
    columns tagged = map rename_column (columns raw) /\
    dtypes tagged = dtypes raw /\
    rows tagged =
      filter (fun r => is_430_or_530
                         (lookup (columns tagged) (snd r)
                            "annotation_tag__vs1_0_"))
        (rows raw) /\
    query_str tagged = Mask m /\ length m = length (rows tagged) /\
    columns df = columns tagged /\ dtypes df = dtypes tagged /\
    index_of "metabolite_name" (columns df) = Some p /\
    rows df = first_of_each (at_position p) [] (keep_rows m (rows tagged)).
Proof.
  unfold load_frame.
  destruct (read_csv file 4 usecols) as [raw| |] eqn:Hraw; try discriminate.
  simpl.
  destruct (query tag_430_or_530 (rename rename_column raw))
    as [tagged| |] eqn:Htag; try discriminate.
  simpl.
  destruct (query query_str tagged) as [asked| |] eqn:Hask; try discriminate.
  simpl. unfold drop_duplicates.
  destruct (index_of "metabolite_name" (columns asked)) as [p|] eqn:Hp;
    [|discriminate].
  intros [= <-].
  apply tag_query_inversion in Htag. simpl in Htag.
  destruct Htag as (Hc & Hd & Hr).
  apply query_inversion in Hask.
  destruct Hask as (m & Hm & Hlen & Hc' & Hd' & Hr').
  exists raw, tagged, m, p. simpl.
  rewrite Hc'. rewrite Hc' in Hp. rewrite Hr'.
  repeat split; try assumption || reflexivity.
  now rewrite Hc.
Qed.

Lemma overlay_returns (w : world) (query_str : expression)
    (loc bg : string) (crop : Z * Z * Z * Z)
    (img : image) (df : frame) (w' : world) :
  overlay_untargeted_data w query_str loc bg crop = (Returns (img, df), w') ->
  exists file content,
    csv_files w loc = Some file /\
    load_frame query_str file = Returns df /\
    plottable df = true /\
    image_files w bg = Some (Picture content) /\
    w' = close_current w.
Proof.
  unfold overlay_untargeted_data.
  destruct (csv_files w loc) as [file|] eqn:Hfile; [|discriminate].
  destruct (load_frame query_str file) as [df0| |] eqn:Hdf; try discriminate.
  destruct (plottable df0) eqn:Hplot; simpl; [|discriminate].
  unfold open_and_crop.
  destruct (image_files w bg) as [[content|]|] eqn:Hbg; try discriminate.
  destruct crop as [[[x0 y0] x1] y1].
  destruct ((x1 <? x0) || (y1 <? y0)); [discriminate|].
  destruct (Z.eqb x1 x0 || Z.eqb y1 y0); [discriminate|].
  simpl. intros [= _ <- <-]. exists file, content. auto.
Qed.

(** Whatever the call does, of what is modelled, it leaves the files and
    the settings alone; of the open figures, it closes the current one or
    none, and when it returns it has closed the current one. *)
Lemma overlay_world (w : world) (query_str : expression)
    (loc bg : string) (crop : Z * Z * Z * Z)
    (o : outcome (image * frame)) (w' : world) :
  overlay_untargeted_data w query_str loc bg crop = (o, w') ->
  o <> Unmodelled ->
  csv_files w' = csv_files w /\ image_files w' = image_files w /\
  rc w' = rc w /\
  (figures w' = figures w \/ figures w' = tl (figures w)) /\
  (forall r, o = Returns r -> figures w' = tl (figures w)).
Proof.
  unfold overlay_untargeted_data.
  destruct (csv_files w loc) as [file|].
  - destruct (load_frame query_str file) as [df|e| ].
    + destruct (plottable df); cbn [negb].
      * intros [= <- <-] _. simpl. auto 6.
      * intros [= <- <-] H. now contradiction H.
    + intros [= <- <-] _. repeat split; auto. discriminate.
    + intros [= <- <-] H. now contradiction H.
  - intros [= <- <-] _. repeat split; auto. discriminate.
Qed.

(** The answer depends on the two files that are named, on the current
    figure and on the settings, and on nothing else of the world. *)
Lemma overlay_same_inputs (w1 w2 : world) (query_str : expression)
    (loc bg : string) (crop : Z * Z * Z * Z) :
  csv_files w1 loc = csv_files w2 loc ->
  image_files w1 bg = image_files w2 bg ->
  hd new_figure (figures w1) = hd new_figure (figures w2) ->
  rc w1 = rc w2 ->
  fst (overlay_untargeted_data w1 query_str loc bg crop) =
  fst (overlay_untargeted_data w2 query_str loc bg crop).
Proof.
  intros Hcsv Himg Hfig Hrc. unfold overlay_untargeted_data.
  rewrite Hcsv.
  destruct (csv_files w2 loc) as [file|]; [|reflexivity].
  destruct (load_frame query_str file) as [df| |]; try reflexivity.
  destruct (plottable df); simpl; [|reflexivity].
  unfold open_and_crop. rewrite Himg, Hfig, Hrc. reflexivity.
Qed.
End OverlayFacts.






(** * Further properties *)

(** ** [is_prime]: the number of trial divisions *)

Lemma is_prime_round_count (n : Z) (st : Z * N) :
  is_prime_count_inv n st ->
  match is_prime_round n st with
  | inl st' => is_prime_count_inv n st'
  | inr res => is_prime_count_post n res
  end.
Proof.
  destruct st as [i k]. intros (Hi & Hsq & Hk & Hd). unfold is_prime_round.
  destruct (Z.leb_spec (i * i) n) as [Hle|Hgt].
  - destruct (Z.eqb_spec (n mod i) 0) as [Hm|Hm]; simpl.
    + rewrite N2Z.inj_succ, Hk.
      replace (Z.succ (i - 2) + 1) with i by lia.
      repeat split; try lia. intros d Hd2. apply Hd. lia.
    + rewrite N2Z.inj_succ, Hk.
      replace (i + 1 - 1) with i by lia.
      repeat split; try lia.
      intros d Hr. destruct (Z.eq_dec d i) as [->|Hne]; [exact Hm|].
      apply Hd. lia.
  - simpl. rewrite Hk.
    replace (i - 2 + 1) with (i - 1) by lia.
    replace (i - 2 + 2) with i by lia. split; [exact Hsq | lia].
Qed.

Lemma is_prime_run_rounds (n : Z) :
  1 < n ->
  rounds (is_prime_round n) (Pos.to_nat (Z.to_pos n)) (2, 0%N) =
  inr (is_prime_run n).
Proof.
  intros Hn. unfold is_prime_run, is_prime_fuel.
  destruct (Z.leb_spec n 1); [lia|]. rewrite iterate_rounds.
  destruct (is_prime_loop_total n (Pos.to_nat (Z.to_pos n))) as (res & Hres & _);
    [lia | lia |].
  rewrite Hres. reflexivity.
Qed.

(** X1: for [n >= 2], with [t] the number of times the body of the loop of
    [is_prime] runs: [(t + 1)^2 <= n] in every case, so the body runs at most
    [sqrt n - 1] times; when the answer is [True], [n < (t + 2)^2], so it
    runs exactly that often; when the answer is [False], [t + 1] is the
    least number from 2 on that divides [n]. *)
Theorem is_prime_trial_count (n : Z) :
  2 <= n ->
  let t := Z.of_N (is_prime_body_runs n) in
  (t + 1) * (t + 1) <= n /\
  if is_prime n then n < (t + 2) * (t + 2)
  else 2 <= t + 1 /\ n mod (t + 1) = 0 /\
       forall d, 2 <= d <= t -> n mod d <> 0.
Proof.
  intros Hn.
  pose proof (rounds_invariant (is_prime_round n) (is_prime_count_inv n)
                (is_prime_count_post n) (is_prime_round_count n)
                (Pos.to_nat (Z.to_pos n)) (2, 0%N)) as H.
  rewrite is_prime_run_rounds in H by lia.
  unfold is_prime, is_prime_body_runs.
  destruct (is_prime_run n) as [b k]. simpl. apply H.
  repeat split; try lia.
Qed.

Lemma is_prime_trial_count_witness :
  let t := Z.of_N (is_prime_body_runs 91) in
  (t + 1) * (t + 1) <= 91 /\
  if is_prime 91 then 91 < (t + 2) * (t + 2)
  else 2 <= t + 1 /\ 91 mod (t + 1) = 0 /\
       forall d, 2 <= d <= t -> 91 mod d <> 0.
Proof. apply (is_prime_trial_count 91). lia. Defined.

Example is_prime_run_91 : is_prime_run 91 = (false, 6%N).
Proof. reflexivity. Qed.

(** ** [generate_primes]: a larger bound only adds primes at the end *)

(** X2: for [a <= b] the list [generate_primes b] is the list
    [generate_primes a] followed by exactly the primes [n] with
    [a < n <= b]. *)
Theorem generate_primes_grows (a b : Z) :
  a <= b ->
  exists more,
    generate_primes b = generate_primes a ++ more /\
    forall n, In n more <-> a < n <= b /\ Z.prime n.
Proof.
  intros Hab. destruct (Z.le_gt_cases 1 a) as [Ha|Ha].
  - exists (filter is_prime (range (a + 1) (b + 1))).
    split; [apply generate_primes_split; lia|].
    intros n. rewrite filter_In, range_In, is_prime_iff_prime. intuition lia.
  - exists (generate_primes b). split.
    + unfold generate_primes at 2. rewrite range_empty by lia. reflexivity.
    + intros n. rewrite generate_primes_prime. split.
      * intros [Hn Hp]. pose proof Hp as [Hp1 _]. split; [lia | exact Hp].
      * intros [Hn Hp]. split; [lia | exact Hp].
Qed.

Lemma generate_primes_grows_witness :
  exists more,
    generate_primes 30 = generate_primes 10 ++ more /\
    forall n, In n more <-> 10 < n <= 30 /\ Z.prime n.
Proof. apply (generate_primes_grows 10 30). lia. Defined.

(** ** [longest_sum_of_consecutive_primes]: what the pair can be *)

Lemma slice_same (l : list Z) (i : Z) : slice l i i = [].
Proof. unfold slice. now rewrite Nat.sub_diag. Qed.


Section LongestSound.
Variable primes : list Z.
Variable target : Z.

Lemma inner_loop_sound (i : Z) (js : list Z) :
  0 <= i -> (forall j, In j js -> j < len primes) ->
  forall best, best_inv primes target best ->
  best_inv primes target (inner_loop primes target i js best).
Proof.
  intros Hi. induction js as [|j js IH]; intros Hjs best Hinv; simpl;
    [exact Hinv|].
  assert (Hjs' : forall j', In j' js -> j' < len primes)
    by (intros j' Hj'; apply Hjs; now right).
  destruct (Z.gtb_spec (sum (slice primes i j)) target) as [Hgt|Hle];
    [exact Hinv|].
  destruct (is_prime (sum (slice primes i j))) eqn:Hp; simpl;
    [|now apply IH].
  destruct (Z.gtb_spec (j - i) (snd best)) as [Hlong|Hshort]; [|now apply IH].
  apply IH; [exact Hjs'|].
  pose proof (Hjs j (or_introl eq_refl)) as Hj.
  destruct Hinv as [Hnn _]. split; simpl; [lia|]. right. exists i, j.
  unfold prime_run. repeat split; try assumption; lia.
Qed.

Lemma outer_loop_sound (ixs : list Z) :
  (forall i, In i ixs -> 0 <= i) ->
  forall best, best_inv primes target best ->
  best_inv primes target (outer_loop primes target ixs best).
Proof.
  induction ixs as [|i ixs IH]; intros Hixs best Hinv; simpl; [exact Hinv|].
  apply IH; [intros i' Hi'; apply Hixs; now right|].
  apply inner_loop_sound; [apply Hixs; now left | | exact Hinv].
  intros j Hj. apply range_In in Hj. lia.
Qed.
End LongestSound.

(** X3: for every list of integers, negative entries included, and every
    [target], the pair [(max_prime, max_length)] handed back is [(0, 0)], or
    else [max_length] is at least 1 and less than the length of the list,
    and [max_prime] is a prime not exceeding [target] that is the sum of
    [max_length] consecutive entries which stop before the last entry. *)
Theorem longest_sum_sound (primes : list Z) (target : Z) :
  let best := longest_sum_of_consecutive_primes primes target in
  best = (0, 0) \/
  (1 <= snd best < len primes /\
   Z.prime (fst best) /\ fst best <= target /\
   exists i, 0 <= i /\ i + snd best < len primes /\
             fst best = sum (slice primes i (i + snd best))).
Proof.
  cbv zeta.
  assert (H : best_inv primes target
                (longest_sum_of_consecutive_primes primes target)).
  { apply outer_loop_sound.
    - intros i Hi. apply range_In in Hi. lia.
    - split; simpl; [lia | now left]. }
  destruct H as [_ [H0|(i & j & Hrun & Hj & Hlen & Hsum)]]; [now left|].
  destruct (Z.eq_dec (snd (longest_sum_of_consecutive_primes primes target)) 0)
    as [Hz|Hnz].
  - (* a run of length 0 sums to 0, which is no prime *)
    destruct Hrun as (_ & _ & _ & _ & Hp).
    assert (j = i) by lia. subst j. rewrite slice_same in Hp. discriminate Hp.
  - right. destruct Hrun as (Hi & Hij & _ & Hle & Hp).
    rewrite <- Hsum in Hle, Hp.
    split; [lia|]. split; [now apply is_prime_iff_prime|].
    split; [exact Hle|].
    exists i. replace (i + snd (longest_sum_of_consecutive_primes primes target))
      with j by lia.
    split; [lia|]. split; [lia | exact Hsum].
Qed.

(** X4: the last entry of the list is never read: the pair handed back is
    the same whatever the last entry is, and a list of one entry always
    gives [(0, 0)]. *)
Theorem longest_sum_last_entry_unread :
  (forall (l : list Z) (x y target : Z),
     longest_sum_of_consecutive_primes (l ++ [x]) target =
     longest_sum_of_consecutive_primes (l ++ [y]) target) /\
  (forall x target : Z,
     longest_sum_of_consecutive_primes [x] target = (0, 0)).
Proof.
  split; [exact longest_sum_ignores_last|].
  intros x target. unfold longest_sum_of_consecutive_primes. simpl.
  unfold range. simpl. rewrite slice_same.
  change (sum []) with 0. destruct (0 >? target); reflexivity.
Qed.

(** ** The Rust functions against the Python ones *)

(** X5: on every [u32] below [65535^2], and on every composite [u32] up to
    [u32::MAX], the Rust [is_prime] returns, in either build, the boolean the
    Python [is_prime] returns. *)
Theorem rust_is_prime_refines (mode : Rust.build) (n : Z) :
  0 <= n <= Rust.u32_max ->
  n < 65535 * 65535 \/ is_prime n = false ->
  Rust.is_prime mode n = Rust.Value (is_prime n).
Proof. intros Hn H. exact (rust_is_prime_agrees mode n Hn H). Qed.

Lemma rust_is_prime_refines_witness :
  Rust.is_prime Rust.Release 999983 = Rust.Value (is_prime 999983) /\
  Rust.is_prime Rust.Debug 4294967295 = Rust.Value (is_prime 4294967295).
Proof.
  split.
  - apply (rust_is_prime_refines Rust.Release 999983).
    + unfold Rust.u32_max. lia.
    + left. lia.
  - apply (rust_is_prime_refines Rust.Debug 4294967295).
    + unfold Rust.u32_max. lia.
    + right. vm_compute. reflexivity.
Defined.

(** X6: built with overflow checks, the Rust [is_prime] panics on every
    prime [n] with [65535^2 <= n <= u32::MAX]: the loop passes 65535 and
    [65536 * 65536] does not fit a [u32]. *)
Theorem rust_is_prime_checked_panics (n : Z) :
  Z.prime n -> 65535 * 65535 <= n <= Rust.u32_max ->
  Rust.is_prime Rust.Debug n = Rust.Panic.
Proof. intros Hp Hn. exact (rust_debug_panics n Hp Hn). Qed.

Lemma rust_is_prime_checked_panics_witness :
  Rust.is_prime Rust.Debug 4294967291 = Rust.Panic.
Proof.
  apply (rust_is_prime_checked_panics 4294967291).
  - apply is_prime_iff_prime. exact is_prime_4294967291.
  - unfold Rust.u32_max. lia.
Defined.

(** X7: the loop of the Rust [is_prime] comes to an end on every [u32],
    also in the build where the product wraps: with [n] rounds of fuel or
    more it is left, by a [return] or by a panic, and the outcome does not
    depend on the fuel. *)
Theorem rust_is_prime_terminates (mode : Rust.build) (n : Z)
    (fuel : positive) :
  0 <= n <= Rust.u32_max ->
  (Z.to_pos n <= fuel)%positive ->
  Rust.is_prime_fuel mode fuel n = Some (Rust.is_prime mode n).
Proof. intros Hn Hf. exact (rust_is_prime_fuel_enough mode n Hn fuel Hf). Qed.

Lemma rust_is_prime_terminates_witness :
  Rust.is_prime_fuel Rust.Release 1000 97 =
  Some (Rust.is_prime Rust.Release 97).
Proof.
  apply (rust_is_prime_terminates Rust.Release 97 1000).
  - unfold Rust.u32_max. lia.
  - vm_compute. discriminate.
Defined.

(** *** [generate_primes] *)

Lemma rust_filter_primes_agrees (mode : Rust.build) (l : list Z) :
  (forall n, In n l -> 0 <= n < 65535 * 65535) ->
  RustLoops.filter_primes mode l = Some (filter is_prime l).
Proof.
  induction l as [|n l IH]; intros Hl; simpl; [reflexivity|].
  rewrite (rust_is_prime_agrees mode n).
  - rewrite IH by (intros m Hm; apply Hl; now right).
    destruct (is_prime n); reflexivity.
  - specialize (Hl n (or_introl eq_refl)). unfold Rust.u32_max. lia.
  - left. apply Hl. now left.
Qed.

Lemma rust_generate_primes_agrees (mode : Rust.build) (target : Z) :
  target < 65535 * 65535 ->
  RustLoops.generate_primes mode target = Some (generate_primes target).
Proof.
  intros Ht. unfold RustLoops.generate_primes, generate_primes.
  apply rust_filter_primes_agrees. intros n Hn. apply range_In in Hn. lia.
Qed.

(** X8: for every [target] below [65535^2] the Rust [generate_primes]
    returns, in either build, the list the Python [generate_primes]
    returns. *)
Theorem rust_generate_primes_refines (mode : Rust.build) (target : Z) :
  target < 65535 * 65535 ->
  RustLoops.generate_primes mode target = Some (generate_primes target).
Proof.
  exact (rust_generate_primes_agrees mode target).
Qed.

Lemma rust_generate_primes_refines_witness :
  RustLoops.generate_primes Rust.Debug 1000000 =
  Some (generate_primes 1000000).
Proof.
  apply (rust_generate_primes_refines Rust.Debug 1000000). reflexivity.
Defined.

Lemma rust_filter_primes_panics (l : list Z) (p : Z) :
  In p l -> Rust.is_prime Rust.Debug p = Rust.Panic ->
  RustLoops.filter_primes Rust.Debug l = None.
Proof.
  induction l as [|n l IH]; simpl; [tauto|]. intros [->|Hin] Hp.
  - now rewrite Hp.
  - destruct (Rust.is_prime Rust.Debug n); [|reflexivity].
    now rewrite IH.
Qed.

(** X9: built with overflow checks, the Rust [generate_primes] panics as
    soon as a prime at or above [65535^2] lies within [target]. *)
Theorem rust_generate_primes_panics (target p : Z) :
  Z.prime p -> 65535 * 65535 <= p -> p <= target -> target <= Rust.u32_max ->
  RustLoops.generate_primes Rust.Debug target = None.
Proof.
  intros Hp Hlo Hpt Ht. unfold RustLoops.generate_primes.
  apply (rust_filter_primes_panics _ p).
  - apply range_In. lia.
  - apply rust_debug_panics; [exact Hp | lia].
Qed.

Lemma rust_generate_primes_panics_witness :
  RustLoops.generate_primes Rust.Debug 4294967295 = None.
Proof.
  apply (rust_generate_primes_panics 4294967295 4294967291).
  - apply is_prime_iff_prime. exact is_prime_4294967291.
  - discriminate.
  - discriminate.
  - discriminate.
Defined.

(** *** [longest_sum_of_consecutive_primes] *)

Lemma rust_sum_fits (mode : Rust.build) (l : list Z) :
  Forall (fun x => 0 <= x) l ->
  forall acc, 0 <= acc -> acc + sum l <= Rust.u32_max ->
  RustLoops.sum mode l acc = Some (acc + sum l).
Proof.
  induction 1 as [|x l Hx Hl IH]; intros acc Hacc Hfit; simpl.
  - rewrite sum_nil. f_equal. lia.
  - rewrite sum_cons in Hfit |- *.
    pose proof (sum_nonneg l Hl).
    rewrite rust_u32_of_small by lia.
    rewrite IH by lia. f_equal. lia.
Qed.

Lemma sum_le_length (M : Z) (l : list Z) :
  Forall (fun x => 0 <= x <= M) l -> sum l <= Z.of_nat (length l) * M.
Proof.
  induction 1 as [|x l Hx _ IH]; [rewrite sum_nil; simpl; lia|].
  rewrite sum_cons. cbn [length]. lia.
Qed.

Lemma outer_loop_snd_grows (primes : list Z) (target : Z) (ixs : list Z) :
  forall best, snd best <= snd (outer_loop primes target ixs best).
Proof.
  induction ixs as [|i ixs IH]; intros best; simpl; [lia|].
  specialize (IH (inner_loop primes target i
                    (range (i + snd best) (len primes)) best)).
  pose proof (inner_loop_snd_grows primes target i
                (range (i + snd best) (len primes)) best).
  lia.
Qed.

Section RustLongest.
Variable mode : Rust.build.
Variable primes : list Z.
Variables target M : Z.
Hypothesis M_nonneg : 0 <= M.
Hypothesis primes_bounded : Forall (fun x => 0 <= x <= M) primes.
Hypothesis target_small : target < 65535 * 65535.
Hypothesis room : target + M <= Rust.u32_max.

Lemma slice_bounded (i j : Z) :
  Forall (fun x => 0 <= x <= M) (slice primes i j).
Proof.
  apply Forall_forall. intros x Hx. rewrite Forall_forall in primes_bounded.
  eapply primes_bounded, slice_In, Hx.
Qed.

Lemma rust_slice_sum (i j : Z) :
  sum (slice primes i j) <= Rust.u32_max ->
  RustLoops.sum mode (slice primes i j) 0 = Some (sum (slice primes i j)) /\
  0 <= sum (slice primes i j).
Proof.
  intros Hfit.
  assert (Hnn : Forall (fun x => 0 <= x) (slice primes i j)).
  { eapply Forall_impl; [|apply (slice_bounded i j)]. simpl. intros x Hx. lia. }
  split; [|now apply sum_nonneg].
  rewrite rust_sum_fits; [reflexivity | exact Hnn | lia | lia].
Qed.

(** The inner loop: the first slice fits by assumption, and each later one
    is the one before, which was within [target], and one entry more. *)
Lemma rust_inner_loop_agrees (i : Z) (k : nat) :
  0 <= i ->
  forall (j0 : Z) (best : Z * Z),
  i <= j0 -> Z.to_nat (len primes - j0) = k ->
  sum (slice primes i j0) <= Rust.u32_max ->
  RustLoops.inner_loop mode primes target i (range_from j0 k) best =
  Some (inner_loop primes target i (range_from j0 k) best).
Proof.
  intros Hi. induction k as [|k IH]; intros j0 best Hj0 Hk Hfit; simpl;
    [reflexivity|].
  destruct (rust_slice_sum i j0 Hfit) as [Hsum Hnn]. rewrite Hsum.
  destruct (Z.gtb_spec (sum (slice primes i j0)) target) as [Hgt|Hle];
    [reflexivity|].
  rewrite (rust_is_prime_agrees mode (sum (slice primes i j0)));
    [ | unfold Rust.u32_max; lia | left; lia ].
  destruct (skipn_next primes j0 ltac:(lia)) as [p Hp].
  assert (Hnext : sum (slice primes i (j0 + 1)) = sum (slice primes i j0) + p).
  { rewrite (slice_split primes i j0 (j0 + 1)) by lia.
    rewrite sum_app, (slice_one primes j0 p _ ltac:(lia) Hp), sum_cons, sum_nil.
    lia. }
  assert (HpM : p <= M).
  { rewrite Forall_forall in primes_bounded.
    apply primes_bounded, (skipn_In (Z.to_nat j0)). rewrite Hp. now left. }
  destruct (is_prime (sum (slice primes i j0)) && (j0 - i >? snd best));
    apply IH; lia.
Qed.

Lemma rust_outer_loop_agrees (ixs : list Z) :
  (forall i, In i ixs -> 0 <= i) ->
  forall best, 0 <= snd best ->
  snd (outer_loop primes target ixs best) * M <= Rust.u32_max ->
  RustLoops.outer_loop mode primes target ixs best =
  Some (outer_loop primes target ixs best).
Proof.
  induction ixs as [|i ixs IH]; intros Hixs best Hb Hfinal; simpl;
    [reflexivity|].
  simpl in Hfinal.
  set (best1 := inner_loop primes target i
                  (range (i + snd best) (len primes)) best) in *.
  pose proof (inner_loop_snd_grows primes target i
                (range (i + snd best) (len primes)) best) as Hg1.
  fold best1 in Hg1.
  pose proof (outer_loop_snd_grows primes target ixs best1) as Hg2.
  assert (Hi : 0 <= i) by (apply Hixs; now left).
  assert (Hfirst : sum (slice primes i (i + snd best)) <= Rust.u32_max).
  { pose proof (sum_le_length M _ (slice_bounded i (i + snd best))) as Hs.
    assert (Z.of_nat (length (slice primes i (i + snd best))) <= snd best).
    { unfold slice. pose proof (firstn_le_length
        (Z.to_nat (i + snd best) - Z.to_nat i) (skipn (Z.to_nat i) primes)).
      lia. }
    nia. }
  unfold range. rewrite (rust_inner_loop_agrees i _ Hi) by (lia || exact Hfirst).
  fold (range (i + snd best) (len primes)). fold best1.
  apply IH; [intros i' Hi'; apply Hixs; now right | lia | exact Hfinal].
Qed.
End RustLongest.

Lemma rust_longest_sum_agrees (mode : Rust.build) (primes : list Z)
    (target M : Z) :
  0 <= M ->
  Forall (fun x => 0 <= x <= M) primes ->
  target < 65535 * 65535 ->
  target + M <= Rust.u32_max ->
  snd (longest_sum_of_consecutive_primes primes target) * M
    <= Rust.u32_max ->
  RustLoops.longest_sum_of_consecutive_primes mode primes target =
  Some (longest_sum_of_consecutive_primes primes target).
Proof.
  intros HM Hb Ht Hroom Hfinal.
  unfold RustLoops.longest_sum_of_consecutive_primes.
  unfold longest_sum_of_consecutive_primes in Hfinal |- *.
  apply (rust_outer_loop_agrees mode primes target M); try assumption.
  - intros i Hi. apply range_In in Hi. lia.
  - simpl. lia.
Qed.

(** X10: the Rust [longest_sum_of_consecutive_primes] returns, in either
    build and without a panic, the pair the Python function returns, when
    the entries lie between 0 and a bound [M], [target] is below [65535^2]
    and [target + M] is a [u32], and so is [M] times the length of the
    longest run found.  The run of [main] on one million is within these
    bounds (see the witness). *)
Theorem rust_longest_sum_refines (mode : Rust.build) (primes : list Z)
    (target M : Z) :
  0 <= M ->
  Forall (fun x => 0 <= x <= M) primes ->
  target < 65535 * 65535 ->
  target + M <= Rust.u32_max ->
  snd (longest_sum_of_consecutive_primes primes target) * M
    <= Rust.u32_max ->
  RustLoops.longest_sum_of_consecutive_primes mode primes target =
  Some (longest_sum_of_consecutive_primes primes target).
Proof.
  exact (rust_longest_sum_agrees mode primes target M).
Qed.

Lemma generate_primes_bounded (target : Z) :
  Forall (fun x => 0 <= x <= target) (generate_primes target).
Proof.
  apply Forall_forall. intros x Hx. apply generate_primes_In in Hx. lia.
Qed.

Lemma rust_longest_sum_refines_witness :
  RustLoops.longest_sum_of_consecutive_primes Rust.Debug
    (generate_primes 1000000) 1000000 =
  Some (longest_sum_of_consecutive_primes (generate_primes 1000000) 1000000).
Proof.
  apply (rust_longest_sum_refines Rust.Debug (generate_primes 1000000)
           1000000 1000000).
  - discriminate.
  - exact (generate_primes_bounded 1000000).
  - reflexivity.
  - discriminate.
  - exact (eq_ind_r (fun r => snd r * 1000000 <= Rust.u32_max)
             (proj1 (Z.leb_le (snd (997651, 543) * 1000000) Rust.u32_max)
                eq_refl)
             (proj1 pe50_value)).
Defined.

(** ** [overlay_untargeted_data]: names, errors, and the table made of it *)

Section ReportFacts.
Import DeepLCMS Report.
Local Open Scope string_scope.

Ltac every_char c :=
  destruct c as [[] [] [] [] [] [] [] []]; vm_compute; try reflexivity;
  try discriminate; auto.

Lemma map_string_compose (f g : ascii -> ascii) (s : string) :
  map_string g (map_string f s) = map_string (fun c => g (f c)) s.
Proof. induction s as [|c s IH]; simpl; [reflexivity | now rewrite IH]. Qed.

Lemma map_string_length (f : ascii -> ascii) (s : string) :
  String.length (map_string f s) = String.length s.
Proof. induction s as [|c s IH]; simpl; [reflexivity | now rewrite IH]. Qed.

Lemma map_string_all (p : ascii -> bool) (f : ascii -> ascii) (s : string) :
  (forall c, p (f c) = true) -> all_chars p (map_string f s) = true.
Proof.
  intros H. induction s as [|c s IH]; simpl; [reflexivity|].
  now rewrite H, IH.
Qed.

Lemma map_string_ext (f g : ascii -> ascii) (s : string) :
  (forall c, f c = g c) -> map_string f s = map_string g s.
Proof.
  intros H. induction s as [|c s IH]; simpl; [reflexivity|].
  now rewrite H, IH.
Qed.

Lemma rename_column_chars (x : string) :
  rename_column x = map_string rename_char x.
Proof. unfold rename_column, lower. rewrite map_string_compose. reflexivity. Qed.

Lemma rename_char_word (c : ascii) :
  is_word_char (rename_char c) && negb (between 65 90 (rename_char c)) = true.
Proof. every_char c. Qed.

Lemma rename_char_again (c : ascii) : rename_char (rename_char c) = rename_char c.
Proof. every_char c. Qed.


(** X11: a renamed column name is made of lower-case letters, digits and
    underscores only (bytes beyond ASCII apart), which is what lets the two
    queries name the columns; it is as long as the name it comes from; and
    renaming it again changes nothing. *)
Theorem rename_column_clean (x : string) :
  all_chars (fun c => is_word_char c && negb (between 65 90 c))
    (rename_column x) = true /\
  String.length (rename_column x) = String.length x /\
  rename_column (rename_column x) = rename_column x.
Proof.
  rewrite !rename_column_chars. split; [|split].
  - apply map_string_all, rename_char_word.
  - apply map_string_length.
  - rewrite map_string_compose. apply map_string_ext, rename_char_again.
Qed.

Example rename_column_usecols :
  map rename_column usecols =
  ["average_rt_min_"; "average_mz"; "metabolite_name"; "ontology";
   "annotation_tag__vs1_0_"; "ms_ms_matched"; "sp_10"; "sp_20"].
Proof. reflexivity. Qed.

(** *** Headings *)

Lemma all_chars_app (p : ascii -> bool) (s1 s2 : string) :
  all_chars p (s1 ++ s2) = all_chars p s1 && all_chars p s2.
Proof.
  induction s1 as [|c s1 IH]; simpl; [reflexivity|].
  now rewrite IH, andb_assoc.
Qed.

Lemma prefix_char (a c : ascii) (s : string) :
  prefix (String a EmptyString) (String c s) = Ascii.eqb a c.
Proof.
  cbn [prefix]. destruct (ascii_dec a c) as [->|Hne].
  - rewrite Ascii.eqb_refl. destruct s; reflexivity.
  - symmetry. now apply Ascii.eqb_neq.
Qed.

Lemma replace_from_cons (old new : string) (c : ascii) (s : string) :
  replace_from old new 0 (String c s) =
  if prefix old (String c s)
  then new ++ replace_from old new (String.length old - 1) s
  else String c (replace_from old new 0 s).
Proof. reflexivity. Qed.

Lemma replace_underscore_all (s : string) :
  all_chars not_underscore (replace "_" " " s) = true.
Proof.
  unfold replace. induction s as [|c s IH]; [reflexivity|].
  rewrite replace_from_cons, prefix_char.
  destruct (Ascii.eqb "_" c) eqn:E.
  - exact IH.
  - cbn [all_chars]. rewrite IH, andb_true_r. unfold not_underscore.
    apply negb_true_iff. rewrite Ascii.eqb_sym. exact E.
Qed.

Lemma replace_from_all (p : ascii -> bool) (old new : string) (s : string) :
  all_chars p new = true ->
  forall skip, all_chars p s = true ->
  all_chars p (replace_from old new skip s) = true.
Proof.
  intros Hnew. induction s as [|c s IH]; intros skip Hs; [reflexivity|].
  cbn [all_chars] in Hs. apply andb_prop in Hs. destruct Hs as [Hc Hs].
  destruct skip as [|k].
  - rewrite replace_from_cons. destruct (prefix old (String c s)).
    + rewrite all_chars_app, Hnew. now apply IH.
    + cbn [all_chars]. rewrite Hc. now apply IH.
  - change (replace_from old new (S k) (String c s))
      with (replace_from old new k s).
    now apply IH.
Qed.

Lemma letter_case_not_underscore (c : ascii) :
  is_letter c = true ->
  not_underscore (lower_char c) = true /\ not_underscore (upper_char c) = true.
Proof. every_char c. Qed.

Lemma title_from_all (s : string) :
  forall inside, all_chars not_underscore s = true ->
  all_chars not_underscore (title_from inside s) = true.
Proof.
  induction s as [|c s IH]; intros inside Hs; simpl; [reflexivity|].
  simpl in Hs. apply andb_prop in Hs. destruct Hs as [Hc Hs].
  destruct (is_letter c) eqn:Hl; simpl.
  - destruct (letter_case_not_underscore c Hl) as [Hlo Hup].
    rewrite IH by exact Hs. destruct inside; [rewrite Hlo | rewrite Hup];
      reflexivity.
  - rewrite Hc. now apply IH.
Qed.

(** X12: no heading has an underscore left in it, whatever the column name
    it is made from. *)
Theorem heading_no_underscore (df : string) :
  all_chars not_underscore (heading df) = true.
Proof.
  unfold heading, title. apply title_from_all.
  apply replace_from_all; [reflexivity|]. apply replace_underscore_all.
Qed.

(** The headings of the columns the results tables have, the one the second
    [rename] of the first table looks up among them; and what becomes of a
    name with [val] inside a word. *)
Example heading_examples :
  heading "val_loss" = "Validation Loss" /\
  heading "minimal_param_model_count" = "Minimal Param Model Count" /\
  heading "interval_f1" = "Intervalidation F1".
Proof. repeat split. Qed.

(** *** When [overlay_untargeted_data] raises *)

(** *** Failures of [overlay_untargeted_data] *)

Lemma open_and_crop_raises (w : world) (bg : string)
    (x0 y0 x1 y1 : Z) (e : exception) :
  open_and_crop w bg (x0, y0, x1, y1) = Raises e ->
  (image_files w bg = None /\ e = FileNotFoundError) \/
  (image_files w bg = Some NoPicture /\ e = UnidentifiedImageError) \/
  ((exists content, image_files w bg = Some (Picture content)) /\
   (x1 < x0 \/ y1 < y0)%Z /\ e = ValueError).
Proof.
  unfold open_and_crop.
  destruct (image_files w bg) as [[content|]|].
  - destruct (x1 <? x0)%Z eqn:Hx; simpl.
    + intros [= <-]. right. right. split; [now exists content|].
      split; [left; now apply Z.ltb_lt | reflexivity].
    + destruct (y1 <? y0)%Z eqn:Hy; simpl.
      * intros [= <-]. right. right. split; [now exists content|].
        split; [right; now apply Z.ltb_lt | reflexivity].
      * destruct (Z.eqb x1 x0 || Z.eqb y1 y0); discriminate.
  - intros [= <-]. right. left. auto.
  - intros [= <-]. left. auto.
Qed.

Lemma open_and_crop_raises_iff (w : world) (bg : string)
    (x0 y0 x1 y1 : Z) (e : exception) :
  open_and_crop w bg (x0, y0, x1, y1) = Raises e <->
  (image_files w bg = None /\ e = FileNotFoundError) \/
  (image_files w bg = Some NoPicture /\ e = UnidentifiedImageError) \/
  ((exists content, image_files w bg = Some (Picture content)) /\
   (x1 < x0 \/ y1 < y0)%Z /\ e = ValueError).
Proof.
  split; [apply open_and_crop_raises|].
  unfold open_and_crop.
  intros [[-> ->]|[[-> ->]|([content ->] & Hbox & ->)]]; try reflexivity.
  destruct (x1 <? x0)%Z eqn:Hx; [reflexivity|].
  destruct (y1 <? y0)%Z eqn:Hy; [reflexivity|].
  apply Z.ltb_ge in Hx, Hy. lia.
Qed.



(** The call raises as pandas and PIL do: no file, no header line, a
    missing column, a name in the query that is no column, no image. *)
Example overlay_raises :
  fst (overlay_untargeted_data (example_world example_file []) example_query
         "nothing.csv" "activation.png" (25, 90, 850, 910))
    = Raises FileNotFoundError /\
  fst (overlay_untargeted_data (example_world (firstn 4 example_file) [])
         example_query "PeakID.csv" "activation.png" (25, 90, 850, 910))
    = Raises EmptyDataError /\
  fst (overlay_untargeted_data
         (example_world (["a"; "b"] :: example_file) []) example_query
         "PeakID.csv" "activation.png" (25, 90, 850, 910))
    = Raises ValueError /\
  fst (overlay_untargeted_data (example_world example_file [])
         (denote (Inside (1, 0%nat) "average_rt" (2, 0%nat)))
         "PeakID.csv" "activation.png" (25, 90, 850, 910))
    = Raises UndefinedVariableError /\
  fst (overlay_untargeted_data (example_world example_file []) example_query
         "PeakID.csv" "nothing.png" (25, 90, 850, 910))
    = Raises FileNotFoundError.
Proof. repeat split; vm_compute; reflexivity. Qed.

(** The two calls of the document, on the example file: the first query
    selects what its first part selects, the second nothing. *)
Example overlay_of_the_figures :
  (exists img w',
     overlay_untargeted_data (example_world example_file [])
       query_of_figure_1 "PeakID.csv" "activation.png" (25, 90, 850, 910)
     = (Returns (img, example_frame), w')) /\
  (exists img w',
     overlay_untargeted_data (example_world example_file [])
       query_of_figure_2 "PeakID.csv" "activation.png" (20, 1070, 850, 1890)
     = (Returns (img, {| columns := renamed_columns;
                         dtypes := dtypes example_frame;
                         rows := [] |}), w')).
Proof. split; do 2 eexists; vm_compute; reflexivity. Qed.

(** *** The values of the frame and the fields of the file *)

Lemma convert_all_at (ds : list dtype) (fields : list string) (p : nat) (s : string) :
  at_position p (convert_all ds fields) = VStr s ->
  nth_error ds p = Some object_.
Proof.
  revert fields p; induction ds as [|d ds IH]; intros [|f fields] p;
    try (destruct p; discriminate).
  destruct p as [|p]; simpl.
  - unfold at_position. simpl. unfold convert.
    destruct d, (classify f); try discriminate; reflexivity.
  - apply IH.
Qed.



(** What pandas makes of some fields: the zeros at the end of [478.30] are
    gone, [null] is a missing value, a numeral in a column of strings stays
    a string. *)
Example convert_examples :
  convert float64 "478.30" = VFloat (decimal 4783 1) /\
  convert float64 "12" = VFloat (decimal 12 0) /\
  convert object_ "null" = VNaN /\
  convert object_ "430" = VStr "430" /\
  convert int64 "430" = VInt 430 /\
  infer ["530"; "430"; "999"] = Some int64 /\
  infer ["530"; "430"; "not annotated"] = Some object_ /\
  infer ["4.1"; "12"; "NA"] = Some float64 /\
  infer ["True"; "False"] = Some bool_ /\
  infer ["1e5"] = None.
Proof. repeat split; vm_compute; reflexivity. Qed.

(** *** A column of numerals *)

Lemma filter_none {A : Type} (p : A -> bool) (l : list A) :
  (forall x, In x l -> p x = false) -> filter p l = [].
Proof.
  induction l as [|x l IH]; simpl; intros H; [reflexivity|].
  rewrite (H x (or_introl eq_refl)). apply IH. intros y Hy. apply H. now right.
Qed.

Lemma raw_value_string (file : csv) (raw : frame) (r : nat * list value)
    (p : nat) (s : string) :
  read_csv file 4 usecols = Returns raw ->
  In r (rows raw) ->
  at_position p (snd r) = VStr s ->
  nth_error (dtypes raw) p = Some object_.
Proof.
  intros Hraw Hin Hv. apply read_csv_inversion in Hraw.
  destruct Hraw as (header & data & _ & _ & _ & _ & _ & Hrows).
  rewrite Hrows in Hin. destruct r as [k vs].
  apply in_combine_r, in_map_iff in Hin. destruct Hin as (line & <- & _).
  eapply convert_all_at, Hv.
Qed.



(** *** The table of identifications *)

Lemma forallb_combine_same {A : Type} (eqb : A -> A -> bool) (l : list A) :
  (forall x, eqb x x = true) ->
  forallb (fun xy => eqb (fst xy) (snd xy)) (combine l l) = true.
Proof.
  intros Hrefl. induction l as [|x l IH]; simpl; [reflexivity|].
  now rewrite Hrefl, IH.
Qed.

Lemma same_layout_eq (df1 df2 : frame) :
  columns df1 = columns df2 -> dtypes df1 = dtypes df2 ->
  same_layout df1 df2 = true.
Proof.
  intros Hc Hd. unfold same_layout. rewrite <- Hc, <- Hd, !Nat.eqb_refl.
  rewrite (forallb_combine_same String.eqb) by apply String.eqb_refl.
  rewrite (forallb_combine_same dtype_eqb) by (now intros []).
  reflexivity.
Qed.

Lemma at_position_nil (p : nat) : at_position p [] = VNaN.
Proof. now destruct p. Qed.

Lemma lookup_nil (names : list string) (c : string) :
  lookup names [] c = VNaN.
Proof.
  unfold lookup. destruct (index_of c names); [apply at_position_nil|].
  reflexivity.
Qed.

Lemma lookup_cons (n : string) (names : list string) (v : value)
    (row : list value) (c : string) :
  lookup (n :: names) (v :: row) c =
  if String.eqb c n then v else lookup names row c.
Proof.
  unfold lookup. simpl. destruct (String.eqb c n); [reflexivity|].
  now destruct (index_of c names).
Qed.

Lemma lookup_without (gone names : list string) (row : list value)
    (c : string) :
  ~ In c gone ->
  lookup (filter (fun n => negb (has_name n gone)) names)
    (without gone names row) c =
  lookup names row c.
Proof.
  intros Hc.
  revert row; induction names as [|n names IH]; intros row;
    [destruct row; reflexivity|].
  destruct row as [|v row].
  - simpl without. rewrite !lookup_nil. reflexivity.
  - simpl. rewrite lookup_cons. destruct (has_name n gone) eqn:Hn; simpl.
    + assert (Hne : String.eqb c n = false).
      { apply String.eqb_neq. intros ->. apply Hc. now apply has_name_In. }
      rewrite Hne. apply IH.
    + rewrite lookup_cons. destruct (String.eqb c n); [reflexivity | apply IH].
Qed.

Lemma Forall2_firstn_map {A B : Type} (R : B -> A -> Prop) (f : A -> B)
    (l : list A) (n : nat) :
  (forall x, R (f x) x) -> Forall2 R (firstn n (map f l)) (firstn n l).
Proof.
  intros HR. revert n; induction l as [|x l IH]; intros [|n]; simpl;
    constructor; auto.
Qed.

(** Two calls that read the same lines hand back frames with the same
    columns, of the same types. *)
Lemma overlay_same_file_layout
    (w1 w2 : world) (q1 q2 : expression) (loc1 loc2 bg1 bg2 : string)
    (crop1 crop2 : Z * Z * Z * Z) (img1 img2 : image) (df1 df2 : frame)
    (w1' w2' : world) :
  overlay_untargeted_data w1 q1 loc1 bg1 crop1 = (Returns (img1, df1), w1') ->
  overlay_untargeted_data w2 q2 loc2 bg2 crop2 = (Returns (img2, df2), w2') ->
  csv_files w1 loc1 = csv_files w2 loc2 ->
  columns df1 = columns df2 /\ dtypes df1 = dtypes df2.
Proof.
  intros H1 H2 Hsame.
  apply overlay_returns in H1. destruct H1 as (file1 & _ & Hf1 & Hdf1 & _).
  apply overlay_returns in H2. destruct H2 as (file2 & _ & Hf2 & Hdf2 & _).
  assert (file1 = file2) by congruence. subst file2.
  apply load_frame_spec in Hdf1, Hdf2.
  destruct Hdf1 as (raw1 & t1 & m1 & p1 & Hraw1 & Hc1 & Hd1 & _ & _ & _
                    & Hc1' & Hd1' & _).
  destruct Hdf2 as (raw2 & t2 & m2 & p2 & Hraw2 & Hc2 & Hd2 & _ & _ & _
                    & Hc2' & Hd2' & _).
  assert (raw1 = raw2) by congruence. subst raw2.
  split; congruence.
Qed.



(** The table for the two frames of the example: three rows, six columns. *)
Example identifications_example :
  identifications example_frame
    {| columns := renamed_columns;
       dtypes := dtypes example_frame;
       rows := [(4%nat, [VFloat (decimal 15 0); VFloat (decimal 12008 2);
                         VStr "Aspirin"; VStr "Acylsalicylic acids";
                         VStr "430"; VBool true; VInt 300; VInt 310])] |}
  = Returns
      {| columns := ["average_rt_min_"; "average_mz"; "metabolite_name";
                     "ontology"; "annotation_tag__vs1_0_"; "ms_ms_matched"];
         dtypes := [float64; float64; object_; object_; object_; bool_];
         rows :=
           [(0%nat, [VFloat (decimal 41 1); VFloat (decimal 46217 2);
                     VStr "Morphine-3-glucuronide"; VStr "Morphinans";
                     VStr "530"; VBool false]);
            (2%nat, [VFloat (decimal 45 1); VFloat (decimal 4783 1);
                     VStr "EDDP"; VStr "Diphenylmethanes"; VStr "430";
                     VBool true]);
            (4%nat, [VFloat (decimal 15 0); VFloat (decimal 12008 2);
                     VStr "Aspirin"; VStr "Acylsalicylic acids";
                     VStr "430"; VBool true])] |}.
Proof. vm_compute. reflexivity. Qed.
End ReportFacts.
(** ** Extra properties of [main] *)

Lemma report_of_pair (primes : list Z) (target a b : Z) :
  longest_sum_of_consecutive_primes primes target = (a, b) ->
  (fun TARGET =>
     let primes := primes in
     let '(max_prime, max_length) :=
       longest_sum_of_consecutive_primes primes TARGET in
     report max_prime max_length) target = report a b.
Proof.
  intros H. cbv beta zeta. rewrite H. reflexivity.
Qed.

Lemma main_report : main = report 997651 543.
Proof.
  exact (report_of_pair (generate_primes 1000000) 1000000 997651 543
           (proj1 pe50_value)).
Qed.

Lemma rs_main_steps (mode : Rust.build) (target : Z) (primes : list Z)
    (a b : Z) :
  RustLoops.generate_primes mode target = Some primes ->
  RustLoops.longest_sum_of_consecutive_primes mode primes target =
    Some (a, b) ->
  (fun TARGET =>
     match RustLoops.generate_primes mode TARGET with
     | None => None
     | Some primes =>
         match
           RustLoops.longest_sum_of_consecutive_primes mode primes TARGET
         with
         | None => None
         | Some (max_prime, max_length) =>
             Some (report max_prime max_length)
         end
     end) target = Some (report a b).
Proof.
  intros H1 H2. cbv beta. rewrite H1, H2. reflexivity.
Qed.

Lemma rs_main_report (mode : Rust.build) :
  rs_main mode = Some (report 997651 543).
Proof.
  refine (rs_main_steps mode 1000000 (generate_primes 1000000) 997651 543
            (rust_generate_primes_agrees mode 1000000 eq_refl) _).
  refine (eq_trans
            (rust_longest_sum_agrees mode (generate_primes 1000000) 1000000
               1000000
               (proj1 (Z.leb_le 0 1000000) eq_refl)
               (generate_primes_bounded 1000000)
               eq_refl
               (proj1 (Z.leb_le (1000000 + 1000000) Rust.u32_max) eq_refl)
               (eq_ind_r (fun r => snd r * 1000000 <= Rust.u32_max)
                  (proj1 (Z.leb_le (snd (997651, 543) * 1000000)
                            Rust.u32_max) eq_refl)
                  (proj1 pe50_value)))
            (f_equal Some (proj1 pe50_value))).
Qed.

(** X16: the last version of [main], with [generate_primes] and
    [longest_sum_of_consecutive_primes] both taken from the Rust extension,
    prints in either build the line the first, all-Python version prints,
    and that line is "Prime: 997651, Length: 543". *)
Theorem rs_main_same_line (mode : Rust.build) :
  rs_main mode = Some main /\ main = "Prime: 997651, Length: 543"%string.
Proof.
  split.
  - exact (eq_trans (rs_main_report mode)
             (f_equal Some (eq_sym main_report))).
  - exact (eq_trans main_report eq_refl).
Qed.
